(** * simple_singleton: the [singleton] class decorator and [is_singleton]

    A shallow embedding of [simple_singleton/singleton.py].

    The decorator replaces [__new__] (and, unless reassignment is allowed,
    [__init__]) of a class by closures over four variables of one run of
    [decorator]: [_instance], [_is_initialized], [_original_new] and
    [_original_init].  Every run of [decorator] has its own closure; the model
    keeps them in a store ([cells]) next to the class table and the object
    heap, and all functions of the source thread that state explicitly.

    What belongs to Python rather than to the source is modelled as far as
    the decorator depends on it: attribute lookup along the MRO, the call
    protocol of [type.__call__] ([__new__], then [__init__] of the type of
    the object returned), and the argument checks of [object.__new__] and
    [object.__init__].  Classes have at most one base, and the [__new__]
    found on a class is [object.__new__] or a wrapper installed by the
    decorator. *)

From stdpp Require Import base option list strings gmap.

Local Open Scope string_scope.

(** ** Values, exceptions, outcomes *)

Abbreviation cid := nat.   (* identity of a class *)
Abbreviation ref := nat.   (* identity of an instance: its place in the heap *)
Abbreviation did := nat.   (* identity of the closure of one run of [decorator] *)

Inductive value :=
  | VNone
  | VInt (z : Z)
  | VStr (s : string)
  | VFunc (name : string)
  | VClass (c : cid)
  | VRef (r : ref).

Definition kwargs := list (string * value).
Definition fields := gmap string value.

Inductive exn :=
  | TypeError (msg : string)
  | UserError (msg : string).

(** [Stuck] is not a Python outcome: it marks a dangling identity or a call
    chain longer than the fuel.  Results that the source returns are stated
    with [Ok], errors it raises with [Raise]. *)
Inductive outcome (A : Type) :=
  | Ok (a : A)
  | Raise (e : exn)
  | Stuck.
Arguments Ok {A} a.
Arguments Raise {A} e.
Arguments Stuck {A}.

(** ** Methods, classes, closures, objects *)

Inductive new_method :=
  | ObjectNew                    (* object.__new__ *)
  | SingletonNew (d : did).      (* MethodType(__new__, original_cls) of closure d *)

Inductive init_method :=
  | ObjectInit                   (* object.__init__ *)
  | UserInit (f : list value → kwargs → fields → fields * option exn)
                                 (* an __init__ written in a class body: the new
                                    __dict__ of self, and what it raises *)
  | SingletonInit (d : did).     (* __init__ of closure d *)

Record class_rec := {
  cname    : string;                 (* __name__ *)
  cbases   : list cid;               (* __mro__[1:], without object *)
  own_new  : option new_method;      (* __dict__['__new__'] *)
  own_init : option init_method;     (* __dict__['__init__'] *)
  own_flag : option string;          (* __dict__['__singleton_flag__'] *)
}.

Record config := {
  thread_safe        : bool;
  allow_subclass     : bool;
  allow_reassignment : bool;
}.

(** The defaults of the keyword arguments of [singleton]. *)
Definition default_config : config :=
  {| thread_safe := false; allow_subclass := false; allow_reassignment := false |}.

(** The variables one run of [decorator] closes over (lines 160-165).  The
    lock is left out of the sequential state: in one thread it is free when
    [__new__] is entered and [with] releases it on every exit.  Module
    [Threads] below has it. *)
Record cell := {
  original_cls    : cid;
  cfg             : config;
  _instance       : option ref;
  _is_initialized : bool;
  _original_new   : new_method;
  _original_init  : init_method;
}.

Record object := {
  obj_class : cid;       (* type(obj) *)
  obj_dict  : fields;    (* obj.__dict__ *)
}.

Record world := {
  classes : list class_rec;
  cells   : list cell;
  heap    : list object;
}.

Definition empty_world : world := {| classes := []; cells := []; heap := [] |}.

(** ** The state and error monad of the embedding *)

Definition M (A : Type) : Type := world → outcome A * world.

Definition ret {A} (a : A) : M A := λ w, (Ok a, w).
Definition raise {A} (e : exn) : M A := λ w, (Raise e, w).
Definition stuck {A} : M A := λ w, (Stuck, w).

Definition bind {A B} (m : M A) (k : A → M B) : M B := λ w,
  match m w with
  | (Ok a, w') => k a w'
  | (Raise e, w') => (Raise e, w')
  | (Stuck, w') => (Stuck, w')
  end.

Notation "x <- m ;; k" := (bind m (λ x, k))
  (at level 100, m at next level, right associativity).
Notation "m ;;; k" := (bind m (λ _, k))
  (at level 100, right associativity).

Definition get_cell (d : did) : M cell := λ w,
  match cells w !! d with
  | Some c => (Ok c, w)
  | None => (Stuck, w)
  end.

Definition with_cells (f : list cell → list cell) (w : world) : world :=
  {| classes := classes w; cells := f (cells w); heap := heap w |}.
Definition with_classes (f : list class_rec → list class_rec) (w : world) : world :=
  {| classes := f (classes w); cells := cells w; heap := heap w |}.
Definition with_heap (f : list object → list object) (w : world) : world :=
  {| classes := classes w; cells := cells w; heap := f (heap w) |}.

(** [nonlocal _instance; _instance = r] in closure [d]. *)
Definition set_instance (d : did) (r : ref) : M unit := λ w,
  (Ok tt, with_cells (alter (λ c,
     {| original_cls := original_cls c; cfg := cfg c;
        _instance := Some r; _is_initialized := _is_initialized c;
        _original_new := _original_new c; _original_init := _original_init c |}) d) w).

(** [nonlocal _is_initialized; _is_initialized = True] in closure [d]. *)
Definition set_initialized (d : did) : M unit := λ w,
  (Ok tt, with_cells (alter (λ c,
     {| original_cls := original_cls c; cfg := cfg c;
        _instance := _instance c; _is_initialized := true;
        _original_new := _original_new c; _original_init := _original_init c |}) d) w).

(** ** Python: attribute lookup, [isinstance], [object.__new__], [object.__init__] *)

Fixpoint mro_find {A} (cs : list class_rec) (attr : class_rec → option A)
    (mro : list cid) : option A :=
  match mro with
  | [] => None
  | c :: rest =>
      match cs !! c ≫= attr with
      | Some a => Some a
      | None => mro_find cs attr rest
      end
  end.

Definition class_name (w : world) (c : cid) : string :=
  default "" (cname <$> classes w !! c).
(** [cls.__mro__] without [object]: the class itself comes first. *)
Definition class_mro (w : world) (c : cid) : list cid :=
  c :: default [] (cbases <$> classes w !! c).

(** [cls.__new__], [cls.__init__] and [getattr(cls, _SINGLETON_FLAG, None)]. *)
Definition class_new (w : world) (c : cid) : new_method :=
  default ObjectNew (mro_find (classes w) own_new (class_mro w c)).
Definition class_init (w : world) (c : cid) : init_method :=
  default ObjectInit (mro_find (classes w) own_init (class_mro w c)).
Definition class_flag (w : world) (c : cid) : option string :=
  mro_find (classes w) own_flag (class_mro w c).

(** [issubclass(c, base)] and [isinstance(obj, base)] for a class [base]. *)
Definition issubclass (w : world) (c base : cid) : bool :=
  bool_decide (base ∈ class_mro w c).
Definition isinstance (w : world) (o : object) (base : cid) : bool :=
  issubclass w (obj_class o) base.

Definition new_is_object (m : new_method) : bool :=
  match m with ObjectNew => true | _ => false end.
Definition init_is_object (m : init_method) : bool :=
  match m with ObjectInit => true | _ => false end.

Definition excess_args (args : list value) (kw : kwargs) : bool :=
  match args, kw with
  | [], [] => false
  | _, _ => true
  end.

(** [object.__new__(cls, *args, **kw)].  Excess arguments are an error when
    the type overrides [__new__], or overrides neither [__new__] nor
    [__init__].  The new object gets the next free address. *)
Definition object_new (cls : cid) (args : list value) (kw : kwargs) : M ref := λ w,
  if excess_args args kw && negb (new_is_object (class_new w cls)) then
    (Raise (TypeError
       "object.__new__() takes exactly one argument (the type to instantiate)"), w)
  else if excess_args args kw && init_is_object (class_init w cls) then
    (Raise (TypeError (class_name w cls +:+ "() takes no arguments")), w)
  else
    (Ok (length (heap w)),
     with_heap (λ h, (h ++ [{| obj_class := cls; obj_dict := ∅ |}])%list) w).

(** [object.__init__(self, *args, **kw)].  Excess arguments are an error when
    the type overrides [__init__], or overrides neither method. *)
Definition object_init (self : ref) (args : list value) (kw : kwargs) : M unit := λ w,
  match heap w !! self with
  | None => (Stuck, w)
  | Some o =>
      if excess_args args kw && negb (init_is_object (class_init w (obj_class o))) then
        (Raise (TypeError
           "object.__init__() takes exactly one argument (the instance to initialize)"), w)
      else if excess_args args kw && new_is_object (class_new w (obj_class o)) then
        (Raise (TypeError (class_name w (obj_class o) +:+ "() takes no arguments")), w)
      else (Ok tt, w)
  end.

(** An [__init__] of a class body: it rewrites [self.__dict__] and may raise
    after that. *)
Definition user_init (f : list value → kwargs → fields → fields * option exn)
    (self : ref) (args : list value) (kw : kwargs) : M unit := λ w,
  match heap w !! self with
  | None => (Stuck, w)
  | Some o =>
      let '(fl, e) := f args kw (obj_dict o) in
      let w' := with_heap (<[self := {| obj_class := obj_class o; obj_dict := fl |}]>) w in
      match e with
      | Some e => (Raise e, w')
      | None => (Ok tt, w')
      end
  end.

(** ** The closures of [decorator] (lines 167-216)

    [call] stands for calling a [__new__] (or [__init__]) method object; the
    knot is tied by [call_new] and [call_init] below. *)

Section Closures.
Variable call_new : new_method → cid → list value → kwargs → M ref.
Variable call_init : init_method → ref → list value → kwargs → M unit.

(** Lines 167-179. *)
Definition _check_subclass (d : did) (cls : cid) : M bool :=
  c <- get_cell d ;;
  λ w,
    if negb (allow_subclass (cfg c)) then
      (Raise (TypeError ("Singleton class " +:+ class_name w (original_cls c)
                         +:+ " cannot be inherited")), w)
    else if bool_decide (class_flag w cls ≠ Some (class_name w cls)) then
      (* Not using singleton decorator *)
      (Raise (TypeError ("Subclass " +:+ class_name w cls
                         +:+ " must also be a singleton")), w)
    else (Ok true, w).

(** Lines 181-185. *)
Definition _create_instance (d : did) (cls : cid) (args : list value)
    (kw : kwargs) : M ref :=
  c <- get_cell d ;;
  if new_is_object (_original_new c) then object_new cls [] []
  else call_new (_original_new c) cls args kw.

(** Lines 188-208.  The wrapper is bound to [original_cls], so its first
    positional argument is the class being constructed: the source's
    [args] is [VClass cls :: rest], and [cls = args[0]] is [cls]. *)
Definition __new__ (d : did) (cls : cid) (rest : list value) (kw : kwargs) : M ref :=
  let args := VClass cls :: rest in
  c <- get_cell d ;;
  if negb (bool_decide (cls = original_cls c)) then
    (* if cls is a subclass of original_cls *)
    _check_subclass d cls ;;;
    r <- _create_instance d cls args kw ;;
    set_instance d r ;;;
    ret r
  else
    (match _instance c with
     | None =>
         if thread_safe (cfg c) then
           (* with _lock: double-checked locking *)
           c' <- get_cell d ;;
           match _instance c' with
           | None => r <- _create_instance d cls args kw ;; set_instance d r
           | Some _ => ret tt
           end
         else
           r <- _create_instance d cls args kw ;; set_instance d r
     | Some _ => ret tt
     end) ;;;
    c'' <- get_cell d ;;
    match _instance c'' with
    | Some r => ret r
    | None => stuck
    end.

(** Lines 211-216. *)
Definition __init__ (d : did) (self : ref) (args : list value) (kw : kwargs) : M unit :=
  c <- get_cell d ;;
  if negb (_is_initialized c) then
    call_init (_original_init c) self args kw ;;;
    set_initialized d
  else ret tt.
End Closures.

(** Calling a [__new__] method object as [m(cls, *args, **kw)], and an
    [__init__] as [m(self, *args, **kw)].  A closure only ever calls the
    method captured when it was created, so the depth of a call is bounded
    by the number of closures. *)
Fixpoint call_new (fuel : nat) (m : new_method) (cls : cid) (args : list value)
    (kw : kwargs) : M ref :=
  match m with
  | ObjectNew => object_new cls args kw
  | SingletonNew d =>
      match fuel with
      | 0 => stuck
      | S fuel' => __new__ (call_new fuel') d cls args kw
      end
  end.

Fixpoint call_init (fuel : nat) (m : init_method) (self : ref) (args : list value)
    (kw : kwargs) : M unit :=
  match m with
  | ObjectInit => object_init self args kw
  | UserInit f =>
      user_init f self args kw
  | SingletonInit d =>
      match fuel with
      | 0 => stuck
      | S fuel' => __init__ (call_init fuel') d self args kw
      end
  end.

(** ** Python: the class statement and [type.__call__] *)

(** [class name(base): ...], with or without an [__init__] in its body. *)
Definition class_create (name : string) (base : option cid)
    (init : option init_method) : M cid := λ w,
  let c := length (classes w) in
  let new_class bases :=
    (Ok c, with_classes (λ cs,
       (cs ++ [{| cname := name; cbases := bases; own_new := None;
                  own_init := init; own_flag := None |}])%list) w) in
  match base with
  | None => new_class []
  | Some b =>
      match classes w !! b with
      | Some _ => new_class (class_mro w b)
      | None => (Stuck, w)
      end
  end.

(** A construction call of [cls] with [args] and [kw]: [type.__call__] calls [cls.__new__(cls, *args, **kw)]
    and, when the result is an instance of [cls], the [__init__] of the
    result's own type with the same arguments. *)
Definition construct (cls : cid) (args : list value) (kw : kwargs) : M ref := λ w,
  let fuel := S (length (cells w)) in
  (r <- call_new fuel (class_new w cls) cls args kw ;;
   λ w1,
     match heap w1 !! r with
     | None => (Stuck, w1)
     | Some o =>
         if isinstance w1 o cls then
           (call_init fuel (class_init w1 (obj_class o)) r args kw ;;; ret r) w1
         else (Ok r, w1)
     end) w.

(** ** [decorator], [singleton] and [is_singleton] *)

Definition set_own_init (c : cid) (m : init_method) : list class_rec → list class_rec :=
  alter (λ cr, {| cname := cname cr; cbases := cbases cr; own_new := own_new cr;
                  own_init := Some m; own_flag := own_flag cr |}) c.
Definition set_own_new (c : cid) (m : new_method) : list class_rec → list class_rec :=
  alter (λ cr, {| cname := cname cr; cbases := cbases cr; own_new := Some m;
                  own_init := own_init cr; own_flag := own_flag cr |}) c.
Definition set_own_flag (c : cid) (s : string) : list class_rec → list class_rec :=
  alter (λ cr, {| cname := cname cr; cbases := cbases cr; own_new := own_new cr;
                  own_init := own_init cr; own_flag := Some s |}) c.

(** Lines 160-228.  The closure comes into being with the functions that
    capture it; when the target is not a class the run raises before
    anything captured it, and nothing of it remains. *)
Definition decorator (k : config) (original : value) : M value :=
  match original with
  | VClass c => λ w,
      match classes w !! c with
      | None => (Stuck, w)
      | Some _ =>
          let d := length (cells w) in
          let closure :=
            {| original_cls := c; cfg := k;
               _instance := None; _is_initialized := false;
               _original_new := class_new w c;
               _original_init := class_init w c |} in
          let w1 := with_cells (λ l, (l ++ [closure])%list) w in
          let w2 :=
            if negb (allow_reassignment k)
            then with_classes (set_own_init c (SingletonInit d)) w1
            else w1 in
          let w3 := with_classes (set_own_new c (SingletonNew d)) w2 in
          let w4 := with_classes (set_own_flag c (class_name w3 c)) w3 in
          (Ok (VClass c), w4)
      end
  | _ => raise (TypeError "singleton decorator can only be applied to classes")
  end.

(** Lines 23-234: [singleton] returns the decorated class when it is given
    one positionally, and [decorator] itself otherwise. *)
Inductive singleton_result :=
  | Decorated (v : value)
  | Decorator (k : config).

Definition singleton (_cls : value) (k : config) : M singleton_result :=
  match _cls with
  | VNone => ret (Decorator k)
  | _ => v <- decorator k _cls ;; ret (Decorated v)
  end.

(** Lines 237-261. *)
Definition is_singleton (w : world) (cls : value) : bool :=
  match cls with
  | VClass c =>
      match class_flag w c with
      | None => false
      | Some flag => bool_decide (flag = class_name w c)
      end
  | _ => false
  end.

(** The two errors of [_check_subclass]. *)
Definition not_allowed (w : world) (cl : cell) : exn :=
  TypeError ("Singleton class " +:+ class_name w (original_cls cl)
             +:+ " cannot be inherited").
Definition not_singleton (w : world) (cls : cid) : exn :=
  TypeError ("Subclass " +:+ class_name w cls +:+ " must also be a singleton").

(** ** Sequences of construction calls *)

(** One construction call of [cls] per element of [calls], in order. *)
Fixpoint construct_many (cls : cid) (calls : list (list value * kwargs)) : M (list ref) :=
  match calls with
  | [] => ret []
  | (a, k) :: rest =>
      r <- construct cls a k ;;
      rs <- construct_many cls rest ;;
      ret (r :: rs)
  end.

(** The initialization logic [m] run on [self] once per call, each time with
    that call's arguments. *)
Fixpoint reinit_many (fuel : nat) (m : init_method) (self : ref)
    (calls : list (list value * kwargs)) : M (list ref) :=
  match calls with
  | [] => ret []
  | (a, k) :: rest =>
      call_init fuel m self a k ;;;
      rs <- reinit_many fuel m self rest ;;
      ret (self :: rs)
  end.

(** [isinstance(v, type)]. *)
Definition is_type (v : value) : bool :=
  match v with VClass _ => true | _ => false end.

(** ** What a call leaves alone *)

(** The part of a closure that is fixed when [decorator] runs. *)
Definition cell_static (c : cell) : cid * config * new_method * init_method :=
  (original_cls c, cfg c, _original_new c, _original_init c).

(** Calling a [__new__]: no class changes, no closure is added or changes
    its fixed part or its [_is_initialized], the heap only grows. *)
Definition new_frame (w w' : world) : Prop :=
  classes w' = classes w ∧
  cell_static <$> cells w' = cell_static <$> cells w ∧
  _is_initialized <$> cells w' = _is_initialized <$> cells w ∧
  ∃ ext, heap w' = (heap w ++ ext)%list.

(** Calling an [__init__]: no class changes, no closure is added or changes
    its fixed part or its [_instance], no object is created or changes its
    type. *)
Definition init_frame (w w' : world) : Prop :=
  classes w' = classes w ∧
  cell_static <$> cells w' = cell_static <$> cells w ∧
  _instance <$> cells w' = _instance <$> cells w ∧
  obj_class <$> heap w' = obj_class <$> heap w.

(** A relation between the state before and the state after that holds
    for every run of [m]. *)
Definition preserves (R : world → world → Prop) {A} (m : M A) : Prop :=
  ∀ w, R w (m w).2.

(** ** Scenarios *)

Definition config_of (safe sub re : bool) : config :=
  {| thread_safe := safe; allow_subclass := sub; allow_reassignment := re |}.

(** A decorated class [A] that allows subclasses, and an undecorated
    subclass that is also called [A]. *)
Definition same_name_subclass : M cid :=
  p <- class_create "A" None None ;;
  decorator (config_of false true false) (VClass p) ;;;
  class_create "A" (Some p) None.

(** [test_singleton_flag]: a decorated [Singleton] that allows subclasses
    and an undecorated [NonSingletonSubclass]. *)
Definition plain_subclass : M cid :=
  p <- class_create "Singleton" None None ;;
  decorator (config_of false true false) (VClass p) ;;;
  class_create "NonSingletonSubclass" (Some p) None.

(** A decorated [Parent] with configuration [k] and a subclass [Child],
    decorated with [kc] when that is given. *)
Definition parent_and_child (k : config) (kc : option config) : M (cid * cid) :=
  p <- class_create "Parent" None None ;;
  decorator k (VClass p) ;;;
  c <- class_create "Child" (Some p) None ;;
  match kc with
  | Some kc => decorator kc (VClass c) ;;; ret (p, c)
  | None => ret (p, c)
  end.

(** A construction call of [Child] in [parent_and_child]. *)
Definition construct_child (k : config) (kc : option config) (a : list value)
    (kw : kwargs) : M ref :=
  pc <- parent_and_child k kc ;;
  construct pc.2 a kw.

(** [Parent()], [Child()], [Parent()], both classes decorated and the parent
    allowing subclasses. *)
Definition parent_child_parent (safe re : bool) (kc : config) : M (list ref) :=
  pc <- parent_and_child (config_of safe true re) (Some kc) ;;
  r1 <- construct pc.1 [] [] ;;
  r2 <- construct pc.2 [] [] ;;
  r3 <- construct pc.1 [] [] ;;
  ret [r1; r2; r3].

(** [Parent()] then [Child()], and the other order: the instance returned
    for the parent first, the one for the child second. *)
Definition parent_then_child (safe re : bool) (kc : config) : M (ref * ref) :=
  pc <- parent_and_child (config_of safe true re) (Some kc) ;;
  rp <- construct pc.1 [] [] ;;
  rc <- construct pc.2 [] [] ;;
  ret (rp, rc).

Definition child_then_parent (safe re : bool) (kc : config) : M (ref * ref) :=
  pc <- parent_and_child (config_of safe true re) (Some kc) ;;
  rc <- construct pc.2 [] [] ;;
  rp <- construct pc.1 [] [] ;;
  ret (rp, rc).

(** The types of the objects of the heap, by address. *)
Definition heap_types (w : world) : list cid := obj_class <$> heap w.

(** ** The state of a decorated class after its first construction *)

(** Closure [d] is the one behind [T.__new__], its slot holds [r], an object
    whose type is [T], and [T.__init__] is [m]. *)
Record owns (w : world) (d : did) (T : cid) (r : ref) (m : init_method) : Prop := {
  owns_cell : ∃ cl, cells w !! d = Some cl ∧ original_cls cl = T ∧ _instance cl = Some r;
  owns_new  : class_new w T = SingletonNew d;
  owns_init : class_init w T = m;
  owns_obj  : obj_class <$> heap w !! r = Some T;
}.

(** The closure that [decorator] makes for class [T] in world [w]. *)
Definition closure_of (k : config) (T : cid) (w : world) : cell :=
  {| original_cls := T; cfg := k; _instance := None; _is_initialized := false;
     _original_new := class_new w T; _original_init := class_init w T |}.

(** The [__init__] of the classes of the reassignment tests: one positional
    argument, stored as [self.value]. *)
Definition set_value : init_method :=
  UserInit (λ args kw fl,
    match args, kw with
    | [v], [] => (<["value" := v]> fl, None)
    | _, _ => (fl, Some (TypeError "__init__() takes exactly one argument: value"))
    end).

(** [class Counter] with that [__init__], not yet decorated. *)
Definition counter_world : world :=
  (class_create "Counter" None (Some set_value) empty_world).2.

(** Decorating [Counter] with [k] and calling [Counter(1)]. *)
Definition counter_first (k : config) : outcome ref * world :=
  (decorator k (VClass 0) ;;; construct 0 [VInt 1] []) counter_world.

(** ** Threads: concurrent first calls with [thread_safe=True]

    Lines 198-208 of [__new__], for calls on the decorated class itself, run
    by any number of threads.  A step of a thread is one access to a shared
    variable ([_instance], [_lock]) or one end of [_create_instance], the
    original construction logic, which may take any time and returns or
    raises; an exception leaves the [with] block, which releases the lock,
    and ends the call.  The interpreter runs the bytecodes of the threads
    one at a time, so an execution is an interleaving of such steps.  A
    schedule names the thread that moves next; naming a thread that is
    blocked on the lock, or whose call is over, changes nothing. *)

Module Threads.

Inductive pc :=
  | Check1                   (* 198: if _instance is None *)
  | Acquire                  (* 200: with _lock, blocks while the lock is held *)
  | Check2                   (* 202: if _instance is None *)
  | Create                   (* 203: _create_instance is called *)
  | Finish (r : ref)         (* 203: _create_instance ends: it returns r, or raises *)
  | Store (r : ref)          (* 203: _instance = r *)
  | Release                  (* the with block ends *)
  | Return                   (* 208: return _instance *)
  | Done (v : option ref)    (* the value returned; None is Python's None *)
  | Unwind                   (* the exception leaves the with block *)
  | Failed.                  (* the call has raised *)

(** How far a run of the original construction logic has got. *)
Inductive progress :=
  | Running
  | Returned
  | Raised.

Record state := {
  slot  : option ref;             (* _instance *)
  lock  : bool;                   (* _lock is held *)
  built : list (nat * progress);  (* the runs of the original construction
                                     logic in the order they started: the
                                     thread that runs it, and how far it
                                     got; the number of a run is the address
                                     of the object it returns, if it does *)
  pcs   : list pc;                (* where each thread is *)
}.

(** [n] threads about to make the first construction call. *)
Definition init (n : nat) : state :=
  {| slot := None; lock := false; built := []; pcs := replicate n Check1 |}.

Definition goto (t : nat) (p : pc) (s : state) : state :=
  {| slot := slot s; lock := lock s; built := built s; pcs := <[t := p]> (pcs s) |}.

(** One step of thread [t].  Whether a run of the original construction
    logic returns or raises is not decided by these lines: [raises r] says
    it of run number [r], and the properties below hold for every
    [raises]. *)
Definition step_thread (raises : nat → bool) (t : nat) (s : state) : option state :=
  match pcs s !! t with
  | Some Check1 =>
      Some (goto t (match slot s with None => Acquire | Some _ => Return end) s)
  | Some Acquire =>
      if lock s then None
      else Some (goto t Check2
             {| slot := slot s; lock := true; built := built s; pcs := pcs s |})
  | Some Check2 =>
      Some (goto t (match slot s with None => Create | Some _ => Release end) s)
  | Some Create =>
      Some (goto t (Finish (length (built s)))
             {| slot := slot s; lock := lock s;
                built := (built s ++ [(t, Running)])%list; pcs := pcs s |})
  | Some (Finish r) =>
      if raises r then
        Some (goto t Unwind
               {| slot := slot s; lock := lock s;
                  built := <[r := (t, Raised)]> (built s); pcs := pcs s |})
      else
        Some (goto t (Store r)
               {| slot := slot s; lock := lock s;
                  built := <[r := (t, Returned)]> (built s); pcs := pcs s |})
  | Some (Store r) =>
      Some (goto t Release
             {| slot := Some r; lock := lock s; built := built s; pcs := pcs s |})
  | Some Release =>
      Some (goto t Return
             {| slot := slot s; lock := false; built := built s; pcs := pcs s |})
  | Some Return => Some (goto t (Done (slot s)) s)
  | Some Unwind =>
      Some (goto t Failed
             {| slot := slot s; lock := false; built := built s; pcs := pcs s |})
  | Some (Done _) | Some Failed | None => None
  end.

Fixpoint run (raises : nat → bool) (sched : list nat) (s : state) : state :=
  match sched with
  | [] => s
  | t :: rest => run raises rest (default s (step_thread raises t s))
  end.

(** The thread is inside the [with] block. *)
Definition crit (p : pc) : bool :=
  match p with
  | Check2 | Create | Finish _ | Store _ | Release | Unwind => true
  | _ => false
  end.

(** The call of the thread is over: it has returned or raised. *)
Definition over (p : pc) : bool :=
  match p with
  | Done _ | Failed => true
  | _ => false
  end.

Definition all_raised (l : list (nat * progress)) : Prop :=
  Forall (λ x, x.2 = Raised) l.

(** No run has returned and none is under way. *)
Definition idle (s : state) : Prop := slot s = None ∧ all_raised (built s).

(** The last run is that of thread [t], it has got as far as [st], and
    nothing is in [_instance] yet. *)
Definition pending (s : state) (t : nat) (st : progress) : Prop :=
  slot s = None ∧ ∃ l, built s = (l ++ [(t, st)])%list ∧ all_raised l.

(** The last run returned, and what it returned is in [_instance]. *)
Definition settled (s : state) : Prop :=
  ∃ l u, slot s = Some (length l) ∧ built s = (l ++ [(u, Returned)])%list ∧ all_raised l.

(** What holds of the shared variables while thread [t] is at [p]. *)
Definition ok (s : state) (t : nat) (p : pc) : Prop :=
  match p with
  | Check1 | Acquire => True
  | Check2 => lock s = true ∧ (idle s ∨ settled s)
  | Create => lock s = true ∧ idle s
  | Unwind => lock s = true ∧ idle s ∧ ∃ r, built s !! r = Some (t, Raised)
  | Failed => ∃ r, built s !! r = Some (t, Raised)
  | Finish r => lock s = true ∧ pending s t Running ∧ S r = length (built s)
  | Store r => lock s = true ∧ pending s t Returned ∧ S r = length (built s)
  | Release => lock s = true ∧ settled s
  | Return => settled s
  | Done v => v = slot s ∧ settled s
  end.

Record inv (raises : nat → bool) (s : state) : Prop := {
  inv_ok : ∀ t p, pcs s !! t = Some p → ok s t p;
  inv_mutex : ∀ t1 t2 p1 p2,
    pcs s !! t1 = Some p1 → pcs s !! t2 = Some p2 →
    crit p1 = true → crit p2 = true → t1 = t2;
  inv_holder : lock s = true → ∃ t p, pcs s !! t = Some p ∧ crit p = true;
  inv_built :
    idle s ∨
    (lock s = true ∧ ∃ t st, st ≠ Raised ∧ pending s t st) ∨
    settled s;
  inv_raised : ∀ r u, built s !! r = Some (u, Raised) → raises r = true;
}.

(** The steps a thread still has to take, at most. *)
Definition rank (p : pc) : nat :=
  match p with
  | Check1 => 8 | Acquire => 7 | Check2 => 6 | Create => 5 | Finish _ => 4
  | Store _ => 3 | Release => 2 | Return => 1 | Unwind => 1
  | Done _ => 0 | Failed => 0
  end.

(** The steps all threads together still have to take, at most. *)
Definition total_rank (s : state) : nat := sum_list (rank <$> pcs s).
End Threads.

(** ** What a construction call of one class touches *)

(** An [__init__] that is not a wrapper of the decorator. *)
Definition base_init (m : init_method) : bool :=
  match m with SingletonInit _ => false | _ => true end.

(** From [w] to [w']: no class changes, no closure but [d] changes, no
    object but [r] changes, and no object disappears. *)
Definition touches (d : did) (r : ref) (w w' : world) : Prop :=
  classes w' = classes w ∧
  (∀ d', d' ≠ d → cells w' !! d' = cells w !! d') ∧
  (∀ r', r' ≠ r → r' < length (heap w) → heap w' !! r' = heap w !! r') ∧
  (length (heap w) ≤ length (heap w'))%nat.

(** [test_instances_do_not_conflict]: two unrelated decorated classes, and
    [SingletonB()] already called. *)
Definition two_singletons : M (cid * cid) :=
  a <- class_create "SingletonA" None None ;;
  decorator default_config (VClass a) ;;;
  b <- class_create "SingletonB" None None ;;
  decorator default_config (VClass b) ;;;
  construct b [] [] ;;;
  ret (a, b).

(** ** Threads without the lock

    Lines 198 and 206-208 of [__new__]: the same calls with
    [thread_safe=False], where nothing stands between the test of
    [_instance] and the assignment. *)

Module Unlocked.

Inductive pc :=
  | Check                    (* 198: if _instance is None *)
  | Create                   (* 207: _create_instance is called *)
  | Finish (r : ref)         (* 207: _create_instance returns r *)
  | Store (r : ref)          (* 207: _instance = r *)
  | Return                   (* 208: return _instance *)
  | Done (v : option ref).   (* the value returned *)

Record state := {
  slot  : option ref;
  built : list (nat * bool);
  pcs   : list pc;
}.

Definition init (n : nat) : state :=
  {| slot := None; built := []; pcs := replicate n Check |}.

Definition goto (t : nat) (p : pc) (s : state) : state :=
  {| slot := slot s; built := built s; pcs := <[t := p]> (pcs s) |}.

Definition step_thread (t : nat) (s : state) : option state :=
  match pcs s !! t with
  | Some Check =>
      Some (goto t (match slot s with None => Create | Some _ => Return end) s)
  | Some Create =>
      Some (goto t (Finish (length (built s)))
             {| slot := slot s; built := (built s ++ [(t, false)])%list; pcs := pcs s |})
  | Some (Finish r) =>
      Some (goto t (Store r)
             {| slot := slot s; built := <[r := (t, true)]> (built s); pcs := pcs s |})
  | Some (Store r) =>
      Some (goto t Return {| slot := Some r; built := built s; pcs := pcs s |})
  | Some Return => Some (goto t (Done (slot s)) s)
  | Some (Done _) | None => None
  end.

Fixpoint run (sched : list nat) (s : state) : state :=
  match sched with
  | [] => s
  | t :: rest => run rest (default s (step_thread t s))
  end.

(** Every thread tests [_instance] before any thread assigns it; then the
    threads finish their calls one after the other. *)
Definition racy_schedule (n : nat) : list nat :=
  (seq 0 n ++ flat_map (λ t, [t; t; t; t]) (seq 0 n))%list.
End Unlocked.

(** ** States that Python can reach

    A closure captures methods that existed when [decorator] ran, so the
    wrappers it can call belong to closures made before it; the instance of
    a slot is an object of the heap; a wrapper found on a class belongs to a
    closure of the store. *)
Record wf (w : world) : Prop := {
  wf_cells : ∀ d cl, cells w !! d = Some cl →
    (∀ d', _original_new cl = SingletonNew d' → d' < d) ∧
    (∀ d', _original_init cl = SingletonInit d' → d' < d) ∧
    (∀ r, _instance cl = Some r → r < length (heap w));
  wf_classes : ∀ c cr, classes w !! c = Some cr →
    (∀ d, own_new cr = Some (SingletonNew d) → d < length (cells w)) ∧
    (∀ d, own_init cr = Some (SingletonInit d) → d < length (cells w));
}.

(** [wf] with [n] closures. *)
Definition wfn (n : nat) (w : world) : Prop := wf w ∧ length (cells w) = n.

(** Run from [w], [m] does not get stuck, keeps [I], and establishes [Q] of
    what it returns. *)
Definition safe {A} (I : world → Prop) (Q : A → world → Prop) (m : M A)
    (w : world) : Prop :=
  match m w with
  | (Ok a, w') => I w' ∧ Q a w'
  | (Raise _, w') => I w'
  | (Stuck, _) => False
  end.

(** The states made from the empty one by class statements (with or
    without an [__init__] in the body), decorations and construction
    calls. *)
Inductive reachable : world → Prop :=
  | reach_empty : reachable empty_world
  | reach_class w name base init :
      reachable w → from_option (λ m, base_init m = true) True init →
      reachable (class_create name base init w).2
  | reach_decorator w k v :
      reachable w → reachable (decorator k v w).2
  | reach_construct w T a kw :
      reachable w → reachable (construct T a kw w).2.

(** ** Programs that decorate their classes where they declare them *)

(** [cls.__mro__[1:]], without [object]: the proper ancestors of [cls]. *)
Definition bases_of (w : world) (c : cid) : list cid :=
  default [] (cbases <$> classes w !! c).

(** [c] is a proper subclass of a class decorated with
    [allow_subclass=False]. *)
Definition barred (w : world) (c : cid) : Prop :=
  ∃ d cl, cells w !! d = Some cl ∧ allow_subclass (cfg cl) = false ∧
          original_cls cl ∈ bases_of w c.

(** The errors that the subclass checks between [cls] and its ancestor [T]
    raise: that of a decorated class from [T] down to the parent of [cls]
    that does not allow subclasses, or, [cls] having a flag that is not its
    name, that of one that does. *)
Definition rejection (w : world) (T cls : cid) (e : exn) : Prop :=
  (e = not_singleton w cls ∧ class_flag w cls ≠ Some (class_name w cls)) ∨
  ∃ d cl, cells w !! d = Some cl ∧ allow_subclass (cfg cl) = false ∧
          T ∈ class_mro w (original_cls cl) ∧ original_cls cl ∈ bases_of w cls ∧
          e = not_allowed w cl.

(** The states of a program in which every class statement, with or without
    an [__init__] in its body and with no [__new__] there, is decorated at
    once (the decorator syntax) or never; construction calls come in
    between. *)
Inductive declared : world → Prop :=
  | decl_empty : declared empty_world
  | decl_class w name base init :
      declared w → from_option (λ m, base_init m = true) True init →
      declared (class_create name base init w).2
  | decl_decorated w name base init k :
      declared w → from_option (λ m, base_init m = true) True init →
      declared ((c <- class_create name base init ;; decorator k (VClass c)) w).2
  | decl_construct w T a kw :
      declared w → declared (construct T a kw w).2.

(** What such a program keeps true: the bases of a class are its parent
    and the bases of the parent; a [__new__] in a class is the wrapper of a
    closure made for that class, and the only one; the original [__new__]
    of a closure is what the parent of its class has, and the flag of its
    class is the name of the class; and the slot of a closure is empty when
    its class is a proper subclass of a class that does not allow
    subclasses. *)
Record tidy (w : world) : Prop := {
  tidy_bases : ∀ c cr, classes w !! c = Some cr →
    cbases cr = [] ∨ ∃ b, b < c ∧ cbases cr = class_mro w b;
  tidy_new : ∀ c cr m, classes w !! c = Some cr → own_new cr = Some m →
    ∃ d cl, m = SingletonNew d ∧ cells w !! d = Some cl ∧ original_cls cl = c;
  tidy_cell : ∀ d cl, cells w !! d = Some cl →
    ∃ cr, classes w !! original_cls cl = Some cr ∧
          own_new cr = Some (SingletonNew d) ∧
          _original_new cl = default ObjectNew (mro_find (classes w) own_new (cbases cr)) ∧
          own_flag cr = Some (cname cr);
  tidy_slot : ∀ d cl, cells w !! d = Some cl →
    barred w (original_cls cl) → _instance cl = None;
}.

(** The closures in [D] are the same in [w'] as in [w]. *)
Definition same_at (D : did → Prop) (w w' : world) : Prop :=
  ∀ d, D d → cells w' !! d = cells w !! d.

(** A subclass decorated before its parent is: both declared, [Child]
    decorated, then [Parent] decorated with [k]. *)
Definition child_decorated_first (k : config) : M (cid * cid) :=
  p <- class_create "Parent" None None ;;
  c <- class_create "Child" (Some p) None ;;
  decorator default_config (VClass c) ;;;
  decorator k (VClass p) ;;;
  ret (p, c).

(** [Parent] decorated with [k], [Child(Parent)] decorated with [kc], and
    [Grandchild(Child)], decorated with [kg] when that is given. *)
Definition three_generations (k kc : config) (kg : option config) : M cid :=
  pc <- parent_and_child k (Some kc) ;;
  g <- class_create "Grandchild" (Some pc.2) None ;;
  match kg with
  | Some kg => decorator kg (VClass g) ;;; ret g
  | None => ret g
  end.

(** [Parent] decorated with [k], and a [Child(Parent)] whose body has
    [__new__ = object.__new__]. *)
Definition child_with_own_new (k : config) : M (cid * cid) :=
  p <- class_create "Parent" None None ;;
  decorator k (VClass p) ;;;
  c <- class_create "Child" (Some p) None ;;
  λ w, (Ok (p, c), with_classes (set_own_new c ObjectNew) w).

(** * Properties *)

(** ** Relations preserved by every step of a computation *)

Section Preserves.
Variable R : world → world → Prop.
Hypothesis R_refl : ∀ w, R w w.
Hypothesis R_trans : ∀ w1 w2 w3, R w1 w2 → R w2 w3 → R w1 w3.

Lemma preserves_ret {A} (a : A) : preserves R (ret a).
Proof. intros w. apply R_refl. Qed.

Lemma preserves_raise {A} e : preserves R (@raise A e).
Proof. intros w. apply R_refl. Qed.

Lemma preserves_stuck {A} : preserves R (@stuck A).
Proof. intros w. apply R_refl. Qed.

Lemma preserves_pure {A} (f : world → outcome A) : preserves R (λ w, (f w, w)).
Proof. intros w. apply R_refl. Qed.

Lemma preserves_get_cell d : preserves R (get_cell d).
Proof. intros w. unfold get_cell. destruct (cells w !! d); apply R_refl. Qed.

Lemma preserves_bind {A B} (m : M A) (k : A → M B) :
  preserves R m → (∀ a, preserves R (k a)) → preserves R (bind m k).
Proof.
  intros Hm Hk w. unfold bind. specialize (Hm w).
  destruct (m w) as [[a| |] w1]; simpl in *; [|done..].
  eapply R_trans; [exact Hm | apply Hk].
Qed.

Lemma preserves_check_subclass d cls : preserves R (_check_subclass d cls).
Proof.
  unfold _check_subclass. apply preserves_bind; [apply preserves_get_cell|].
  intros c w. repeat case_match; apply R_refl.
Qed.

Section New.
Hypothesis R_set_instance : ∀ d r, preserves R (set_instance d r).
Hypothesis R_object_new : ∀ cls a kw, preserves R (object_new cls a kw).

Lemma preserves_create_instance call d cls a kw :
  (∀ m c a' k, preserves R (call m c a' k)) →
  preserves R (_create_instance call d cls a kw).
Proof.
  intros Hcall. unfold _create_instance.
  apply preserves_bind; [apply preserves_get_cell|].
  intros c. case_match; [apply R_object_new | apply Hcall].
Qed.

Lemma preserves_new call d cls rest kw :
  (∀ m c a' k, preserves R (call m c a' k)) →
  preserves R (__new__ call d cls rest kw).
Proof.
  intros Hcall. unfold __new__.
  apply preserves_bind; [apply preserves_get_cell|]. intros c.
  assert (Hstore : preserves R
    (r <- _create_instance call d cls (VClass cls :: rest) kw ;; set_instance d r)).
  { apply preserves_bind; [by apply preserves_create_instance|].
    intros r. apply R_set_instance. }
  case_match.
  - apply preserves_bind; [apply preserves_check_subclass|]. intros _.
    apply preserves_bind; [by apply preserves_create_instance|]. intros r.
    apply preserves_bind; [apply R_set_instance|]. intros _. apply preserves_ret.
  - apply preserves_bind.
    + repeat case_match; try apply preserves_ret; try exact Hstore.
      apply preserves_bind; [apply preserves_get_cell|]. intros c'.
      case_match; [apply preserves_ret | exact Hstore].
    + intros _. apply preserves_bind; [apply preserves_get_cell|].
      intros c''. case_match; [apply preserves_ret | apply preserves_stuck].
Qed.

Lemma preserves_call_new fuel m cls a kw : preserves R (call_new fuel m cls a kw).
Proof.
  revert m cls a kw. induction fuel as [|fuel IH]; intros [|d] cls a kw; simpl;
    auto using preserves_stuck, preserves_new.
Qed.
End New.

Section Init.
Hypothesis R_set_initialized : ∀ d, preserves R (set_initialized d).
Hypothesis R_object_init : ∀ r a kw, preserves R (object_init r a kw).
Hypothesis R_user_init : ∀ f r a kw, preserves R (user_init f r a kw).

Lemma preserves_init call d self a kw :
  (∀ m r a' k, preserves R (call m r a' k)) →
  preserves R (__init__ call d self a kw).
Proof.
  intros Hcall. unfold __init__.
  apply preserves_bind; [apply preserves_get_cell|]. intros c.
  case_match; [|apply preserves_ret].
  apply preserves_bind; [apply Hcall|]. intros _. apply R_set_initialized.
Qed.

Lemma preserves_call_init fuel m self a kw : preserves R (call_init fuel m self a kw).
Proof.
  revert m self a kw. induction fuel as [|fuel IH]; intros [|f|d] self a kw; simpl;
    auto using preserves_stuck, preserves_init.
Qed.
End Init.
End Preserves.

(** ** The two frames *)

Lemma fmap_alter_inv {A B} (g : A → B) (f : A → A) (i : nat) (l : list A) :
  (∀ x, g (f x) = g x) → g <$> alter f i l = g <$> l.
Proof.
  intros H. rewrite (list_fmap_alter g f id).
  - by apply list_alter_id.
  - apply Forall_forall. intros x _. apply H.
Qed.

Lemma new_frame_refl w : new_frame w w.
Proof. repeat split; try done. exists []. by rewrite app_nil_r. Qed.

Lemma new_frame_trans w1 w2 w3 : new_frame w1 w2 → new_frame w2 w3 → new_frame w1 w3.
Proof.
  intros (Hc & Hs & Hi & e1 & Hh) (Hc' & Hs' & Hi' & e2 & Hh').
  repeat split; try congruence.
  exists (e1 ++ e2)%list. by rewrite Hh', Hh, <-app_assoc.
Qed.

Lemma init_frame_refl w : init_frame w w.
Proof. by repeat split. Qed.

Lemma init_frame_trans w1 w2 w3 : init_frame w1 w2 → init_frame w2 w3 → init_frame w1 w3.
Proof. intros (?&?&?&?) (?&?&?&?). repeat split; congruence. Qed.

Lemma set_instance_new_frame d r : preserves new_frame (set_instance d r).
Proof.
  intros w. unfold set_instance, with_cells; simpl.
  repeat split; simpl; try by apply fmap_alter_inv.
  exists []. by rewrite app_nil_r.
Qed.

Lemma object_new_new_frame cls a kw : preserves new_frame (object_new cls a kw).
Proof.
  intros w. unfold object_new. repeat case_match; simpl; try apply new_frame_refl.
  repeat split. by eexists.
Qed.

Lemma set_initialized_init_frame d : preserves init_frame (set_initialized d).
Proof.
  intros w. unfold set_initialized, with_cells; simpl.
  repeat split; simpl; by apply fmap_alter_inv.
Qed.

Lemma object_init_init_frame r a kw : preserves init_frame (object_init r a kw).
Proof. intros w. unfold object_init. repeat case_match; apply init_frame_refl. Qed.

Lemma user_init_init_frame f r a kw : preserves init_frame (user_init f r a kw).
Proof.
  intros w. unfold user_init. destruct (heap w !! r) as [o|] eqn:Hr; [|apply init_frame_refl].
  destruct (f a kw (obj_dict o)) as [fl e].
  assert (init_frame w (with_heap
    (<[r:={| obj_class := obj_class o; obj_dict := fl |}]>) w)) as Hf.
  { repeat split; simpl. rewrite list_fmap_insert; simpl.
    apply list_insert_id. by rewrite list_lookup_fmap, Hr. }
  by destruct e.
Qed.

Lemma call_new_frame fuel m cls a kw w :
  new_frame w (call_new fuel m cls a kw w).2.
Proof.
  apply (preserves_call_new new_frame new_frame_refl new_frame_trans
           set_instance_new_frame object_new_new_frame).
Qed.

Lemma call_init_frame fuel m r a kw w :
  init_frame w (call_init fuel m r a kw w).2.
Proof.
  apply (preserves_call_init init_frame init_frame_refl init_frame_trans
           set_initialized_init_frame object_init_init_frame user_init_init_frame).
Qed.

(** What the frames say about one closure and one object. *)

Lemma frame_cell_static (l l' : list cell) d c :
  cell_static <$> l' = cell_static <$> l → l !! d = Some c →
  ∃ c', l' !! d = Some c' ∧ cell_static c' = cell_static c.
Proof.
  intros Hs Hd.
  assert ((cell_static <$> l') !! d = Some (cell_static c)) as H.
  { by rewrite Hs, list_lookup_fmap, Hd. }
  rewrite list_lookup_fmap in H. destruct (l' !! d) as [c'|]; [|done].
  exists c'. split; [done|]. simpl in H. congruence.
Qed.

Lemma frame_cells_length {B} (g : cell → B) (l l' : list cell) :
  g <$> l' = g <$> l → length l' = length l.
Proof. intros H. by rewrite <-(length_fmap g l'), H, length_fmap. Qed.

Lemma frame_lookup {A B} (g : A → B) (l l' : list A) i x x' :
  g <$> l' = g <$> l → l !! i = Some x → l' !! i = Some x' → g x' = g x.
Proof.
  intros H Hx Hx'.
  assert ((g <$> l') !! i = (g <$> l) !! i) as E by by rewrite H.
  rewrite !list_lookup_fmap, Hx, Hx' in E. by simplify_eq/=.
Qed.

(** ** Introspection and the target check *)

(** C8. [decorator] applied to a value that is not a class raises the
    TypeError "singleton decorator can only be applied to classes" under
    every configuration and leaves the whole state as it was: no method is
    replaced, no flag is written, no closure is kept.  The same holds for
    [singleton] given such a value positionally. *)
Theorem decorator_rejects_non_type (k : config) (v : value) (w : world) :
  is_type v = false →
  decorator k v w
    = (Raise (TypeError "singleton decorator can only be applied to classes"), w)
  ∧ (v ≠ VNone →
     singleton v k w
       = (Raise (TypeError "singleton decorator can only be applied to classes"), w)).
Proof.
  intros Hv. split.
  - by destruct v.
  - intros Hn. by destruct v.
Qed.

Lemma decorator_rejects_non_type_witness :
  decorator (config_of true true true) (VFunc "some_function") empty_world
    = (Raise (TypeError "singleton decorator can only be applied to classes"),
       empty_world).
Proof.
  apply (decorator_rejects_non_type (config_of true true true)
           (VFunc "some_function") empty_world).
  reflexivity.
Defined.

(** C7, as amended.  [is_singleton] is false for a value that is not a
    class, false for a class on which no flag is found, and otherwise true
    exactly when the flag equals the class's own name; hence it is false for
    a class without a flag of its own that inherits the flag of an ancestor,
    provided its name differs from that flag. *)
Theorem is_singleton_spec (w : world) (v : value) :
  (is_type v = false → is_singleton w v = false) ∧
  (∀ c, v = VClass c → class_flag w c = None → is_singleton w v = false) ∧
  (∀ c flag, v = VClass c → class_flag w c = Some flag →
     (is_singleton w v = true ↔ flag = class_name w c)) ∧
  (∀ c cr flag, v = VClass c → classes w !! c = Some cr → own_flag cr = None →
     mro_find (classes w) own_flag (cbases cr) = Some flag → flag ≠ cname cr →
     is_singleton w v = false).
Proof.
  split; [|split; [|split]].
  - by destruct v.
  - intros c -> Hf. simpl. by rewrite Hf.
  - intros c flag -> Hf. simpl. rewrite Hf. apply bool_decide_eq_true.
  - intros c cr flag -> Hc Hown Hinh Hne. simpl.
    unfold class_flag, class_mro, class_name. rewrite Hc. simpl.
    rewrite Hc. simpl. rewrite Hown, Hinh. by apply bool_decide_eq_false.
Qed.

Lemma is_singleton_spec_witness :
  is_singleton (plain_subclass empty_world).2 (VClass 1) = false.
Proof.
  pose proof (is_singleton_spec (plain_subclass empty_world).2 (VClass 1))
    as (_ & _ & _ & H).
  eapply (H 1 _ "Singleton"); [reflexivity | reflexivity | reflexivity | reflexivity |].
  vm_compute. discriminate.
Defined.

(** C7 as stated fails: the undecorated subclass of [same_name_subclass] has
    no flag of its own and only inherits its parent's, and [is_singleton]
    is true for it. *)
Lemma is_singleton_same_name_subclass :
  let w := (same_name_subclass empty_world).2 in
  (same_name_subclass empty_world).1 = Ok 1 ∧
  (classes w !! 1 ≫= own_flag) = None ∧
  (classes w !! 1 ≫= own_new) = None ∧
  (classes w !! 0 ≫= own_flag) = Some "A" ∧
  issubclass w 1 0 = true ∧
  is_singleton w (VClass 1) = true.
Proof. vm_compute. repeat split. Qed.

(** C10.  The flag is compared with the name of the class, not with the
    class: a class that was never decorated (no flag and no [__new__] of its
    own) and whose name equals the flag it inherits is a singleton for
    [is_singleton], and passes [_check_subclass] of every closure that allows
    subclasses. *)
Theorem name_not_identity (w : world) (c : cid) (cr : class_rec) :
  classes w !! c = Some cr →
  own_flag cr = None → own_new cr = None →
  mro_find (classes w) own_flag (cbases cr) = Some (cname cr) →
  is_singleton w (VClass c) = true ∧
  ∀ d cl, cells w !! d = Some cl → allow_subclass (cfg cl) = true →
    _check_subclass d c w = (Ok true, w).
Proof.
  intros Hc Hown _ Hinh.
  assert (class_flag w c = Some (class_name w c)) as Hflag.
  { unfold class_flag, class_mro, class_name. rewrite Hc. simpl.
    by rewrite Hc; simpl; rewrite Hown. }
  split.
  - simpl. rewrite Hflag. by apply bool_decide_eq_true.
  - intros d cl Hd Hsub. unfold _check_subclass, bind, get_cell.
    rewrite Hd, Hsub. simpl. rewrite Hflag.
    rewrite bool_decide_eq_false_2; [done|]. by intros H; apply H.
Qed.

Lemma name_not_identity_witness :
  let w := (same_name_subclass empty_world).2 in
  is_singleton w (VClass 1) = true ∧
  ∀ d cl, cells w !! d = Some cl → allow_subclass (cfg cl) = true →
    _check_subclass d 1 w = (Ok true, w).
Proof.
  eapply (name_not_identity (same_name_subclass empty_world).2 1);
    reflexivity.
Defined.

(** ** Subclass policy *)

Lemma check_subclass_denied w d cl cls :
  cells w !! d = Some cl → allow_subclass (cfg cl) = false →
  _check_subclass d cls w = (Raise (not_allowed w cl), w).
Proof.
  intros Hd Hsub. unfold _check_subclass, bind, get_cell. by rewrite Hd, Hsub.
Qed.

Lemma check_subclass_flag w d cl cls :
  cells w !! d = Some cl → allow_subclass (cfg cl) = true →
  _check_subclass d cls w =
    if bool_decide (class_flag w cls ≠ Some (class_name w cls))
    then (Raise (not_singleton w cls), w) else (Ok true, w).
Proof.
  intros Hd Hsub. unfold _check_subclass, bind, get_cell. by rewrite Hd, Hsub.
Qed.

(** The subclass branch of [__new__] (lines 192-196). *)
Lemma new_subclass_branch call w d cl cls rest kw :
  cells w !! d = Some cl → cls ≠ original_cls cl →
  __new__ call d cls rest kw w =
    (_check_subclass d cls ;;;
     r <- _create_instance call d cls (VClass cls :: rest) kw ;;
     set_instance d r ;;; ret r) w.
Proof.
  intros Hd Hne. unfold __new__ at 1. unfold bind at 1. unfold get_cell at 1.
  rewrite Hd. by rewrite bool_decide_eq_false_2.
Qed.

Lemma call_new_singleton fuel d cls a kw :
  call_new (S fuel) (SingletonNew d) cls a kw = __new__ (call_new fuel) d cls a kw.
Proof. reflexivity. Qed.

Lemma call_init_singleton fuel d self a kw :
  call_init (S fuel) (SingletonInit d) self a kw = __init__ (call_init fuel) d self a kw.
Proof. reflexivity. Qed.

(** The branch for the decorated class itself (lines 198-208). *)
Lemma new_original_populated call w d cl rest kw r :
  cells w !! d = Some cl → _instance cl = Some r →
  __new__ call d (original_cls cl) rest kw w = (Ok r, w).
Proof.
  intros Hd Hr. unfold __new__, bind, get_cell. rewrite Hd.
  rewrite bool_decide_eq_true_2 by done. simpl. rewrite Hr. simpl. by rewrite Hd, Hr.
Qed.

Lemma new_original_empty call w d cl rest kw :
  cells w !! d = Some cl → _instance cl = None →
  __new__ call d (original_cls cl) rest kw w =
    (r <- _create_instance call d (original_cls cl) (VClass (original_cls cl) :: rest) kw ;;
     set_instance d r ;;;
     c <- get_cell d ;;
     match _instance c with Some r => ret r | None => stuck end) w.
Proof.
  intros Hd Hr. unfold __new__ at 1. unfold bind at 1. unfold get_cell at 1. rewrite Hd.
  rewrite bool_decide_eq_true_2 by done. simpl. rewrite Hr.
  destruct (thread_safe (cfg cl)); unfold bind, get_cell; rewrite ?Hd, ?Hr;
    by destruct (_create_instance _ _ _ _ _ _) as [[r| |] w1].
Qed.

(** A construction call whose [__new__] raises. *)
Lemma construct_new_raises cls a kw w e w' :
  call_new (S (length (cells w))) (class_new w cls) cls a kw w = (Raise e, w') →
  construct cls a kw w = (Raise e, w').
Proof. intros H. unfold construct, bind. by rewrite H. Qed.

(** When the closure of a class decorated with [allow_subclass=False] is
    entered for any other class, the subclass check and [__new__] raise the
    TypeError "Singleton class <name of the decorated class> cannot be
    inherited" and the state is unchanged.  So does the construction call of
    a subclass that inherits that [__new__], and of a decorated subclass
    (empty slot) whose original [__new__] it is. *)
Lemma closure_not_allowed call (w : world) (d : did) (cl : cell) (cls : cid)
    (rest : list value) (kw : kwargs) :
  cells w !! d = Some cl → allow_subclass (cfg cl) = false → cls ≠ original_cls cl →
  _check_subclass d cls w = (Raise (not_allowed w cl), w) ∧
  __new__ call d cls rest kw w = (Raise (not_allowed w cl), w) ∧
  (class_new w cls = SingletonNew d →
     construct cls rest kw w = (Raise (not_allowed w cl), w)) ∧
  (∀ dc cc, class_new w cls = SingletonNew dc → cells w !! dc = Some cc →
     original_cls cc = cls → _instance cc = None → _original_new cc = SingletonNew d →
     construct cls rest kw w = (Raise (not_allowed w cl), w)).
Proof.
  intros Hd Hsub Hne.
  assert (∀ call' rest', __new__ call' d cls rest' kw w = (Raise (not_allowed w cl), w))
    as Hnew.
  { intros call' rest'. rewrite (new_subclass_branch _ _ _ cl) by done.
    unfold bind at 1. by rewrite (check_subclass_denied _ _ cl). }
  split; [by apply check_subclass_denied|]. split; [apply Hnew|]. split.
  - intros Hcn. apply construct_new_raises. rewrite Hcn, call_new_singleton. apply Hnew.
  - intros dc cc Hcn Hdc Hcls Hinst Horig. subst cls. apply construct_new_raises.
    rewrite Hcn, call_new_singleton.
    assert (∃ n, length (cells w) = S n) as [n Hn].
    { apply lookup_lt_Some in Hd. destruct (length (cells w)); [lia | eauto]. }
    rewrite Hn, (new_original_empty _ _ _ cc) by done.
    unfold bind at 1. unfold _create_instance, bind at 1, get_cell at 1.
    rewrite Hdc, Horig. change (new_is_object (SingletonNew d)) with false. cbv iota.
    by rewrite call_new_singleton, Hnew.
Qed.

(** ** The slot of the parent and the construction of subclasses *)

Ltac all_configs := repeat match goal with
  | k : config |- _ => destruct k as [[] [] []]
  | b : bool |- _ => destruct b
  end.

(** C1 fails on the code.  [Parent()], [Child()], [Parent()] with a parent
    that allows subclasses and a decorated child, whatever the other options
    of both: the third call returns the instance of [Child] made by the
    second, not the instance returned by the first. *)
Theorem parent_instance_replaced (safe re : bool) (kc : config) :
  let res := parent_child_parent safe re kc empty_world in
  res.1 = Ok [0; 1; 1] ∧ heap_types res.2 = [0; 1] ∧
  (_instance <$> cells res.2) = [Some 1; Some 1].
Proof. all_configs; vm_compute; done. Qed.

(** C2 fails on the code in its last part.  When the closure of a class
    whose original [__new__] is [object.__new__] is entered for another
    class and the subclass check passes, [__new__] returns a new instance of
    that class, at a fresh address, and stores it in the [_instance] of the
    closure: a slot that held an instance before holds another one after. *)
Theorem subclass_call_writes_parent_slot call (w : world) (d : did) (cl : cell)
    (cls : cid) (rest : list value) (kw : kwargs) :
  cells w !! d = Some cl → cls ≠ original_cls cl → _original_new cl = ObjectNew →
  _check_subclass d cls w = (Ok true, w) →
  let r := length (heap w) in
  let res := __new__ call d cls rest kw w in
  res.1 = Ok r ∧
  heap res.2 = (heap w ++ [{| obj_class := cls; obj_dict := ∅ |}])%list ∧
  (_instance <$> cells res.2 !! d) = Some (Some r) ∧
  (∀ r0, _instance cl = Some r0 → r0 < length (heap w) →
     (_instance <$> cells res.2 !! d) ≠ (_instance <$> cells w !! d)).
Proof.
  intros Hd Hne Horig Hcheck r res.
  assert (res = (Ok r, with_cells (alter (λ c,
     {| original_cls := original_cls c; cfg := cfg c;
        _instance := Some r; _is_initialized := _is_initialized c;
        _original_new := _original_new c; _original_init := _original_init c |}) d)
     (with_heap (λ h, (h ++ [{| obj_class := cls; obj_dict := ∅ |}])%list) w))) as ->.
  { unfold res. rewrite (new_subclass_branch _ _ _ cl) by done.
    unfold bind at 1. rewrite Hcheck. unfold bind at 1.
    unfold _create_instance, bind at 1, get_cell at 1. by rewrite Hd, Horig. }
  simpl. rewrite list_lookup_alter_eq, Hd. simpl.
  repeat split. intros r0 Hr0 Hlt. rewrite Hr0. intros [= E]. unfold r in E. lia.
Qed.

Lemma subclass_call_writes_parent_slot_witness :
  let w := (parent_then_child false false default_config empty_world).2 in
  (_instance <$> cells w !! 0) = Some (Some 1).
Proof.
  pose (w0 := ((pc <- parent_and_child (config_of false true false) (Some default_config) ;;
                construct pc.1 [] []) empty_world).2).
  destruct (subclass_call_writes_parent_slot (call_new 0) w0 0
    {| original_cls := 0; cfg := config_of false true false; _instance := Some 0;
       _is_initialized := true; _original_new := ObjectNew;
       _original_init := ObjectInit |} 1 [VClass 1] [])
    as (_ & _ & H & _); [reflexivity | discriminate | reflexivity | reflexivity |].
  vm_compute in H. vm_compute. exact H.
Defined.

(** C3 fails on the code in one of the two orders.  [Parent()] then
    [Child()] gives two instances, one of each class; [Child()] then
    [Parent()] gives the same instance twice, an instance of [Child], and no
    instance of type [Parent] exists. *)
Theorem isolation_depends_on_order (safe re : bool) (kc : config) :
  let first := parent_then_child safe re kc empty_world in
  let second := child_then_parent safe re kc empty_world in
  (first.1 = Ok (0, 1) ∧ heap_types first.2 = [0; 1]) ∧
  (second.1 = Ok (0, 0) ∧ heap_types second.2 = [1]).
Proof. all_configs; vm_compute; done. Qed.

(** ** Construction calls on a class whose slot is populated *)

Lemma issubclass_refl w T : issubclass w T T = true.
Proof. apply bool_decide_eq_true. unfold class_mro. apply list_elem_of_here. Qed.

(** With the slot populated, a construction call is the [__init__] of the
    class run on the instance of the slot, which is returned. *)
Lemma construct_populated w d T r m a kw :
  owns w d T r m →
  construct T a kw w = (call_init (S (length (cells w))) m r a kw ;;; ret r) w.
Proof.
  intros [(cl & Hd & <- & Hr) Hnew Hinit Hobj].
  unfold construct. unfold bind at 1.
  rewrite Hnew, call_new_singleton, (new_original_populated _ _ _ cl _ _ r) by done.
  destruct (heap w !! r) as [o|]; [|done]. simpl in Hobj. injection Hobj as Hobj.
  unfold isinstance. rewrite Hobj, issubclass_refl. by rewrite Hinit.
Qed.

Lemma owns_init_frame w w' d T r m :
  owns w d T r m → init_frame w w' → owns w' d T r m.
Proof.
  intros [(cl & Hd & Hcls & Hr) Hnew Hinit Hobj] (Hc & Hs & Hi & Hh).
  split.
  - destruct (frame_cell_static _ _ _ _ Hs Hd) as (cl' & Hd' & Hst).
    exists cl'. split; [done|]. split.
    + unfold cell_static in Hst. congruence.
    + rewrite <-Hr. by eapply frame_lookup.
  - unfold class_new, class_mro in *. by rewrite Hc.
  - unfold class_init, class_mro in *. by rewrite Hc.
  - by rewrite <-list_lookup_fmap, Hh, list_lookup_fmap.
Qed.

Lemma init_frame_cells_length w w' : init_frame w w' → length (cells w') = length (cells w).
Proof. intros (_ & Hs & _). by eapply frame_cells_length. Qed.

(** Any number of construction calls on the class: each one runs [__init__]
    of the class on the same instance and returns that instance. *)
Lemma construct_many_populated calls : ∀ w d T r m,
  owns w d T r m →
  construct_many T calls w = reinit_many (S (length (cells w))) m r calls w.
Proof.
  induction calls as [|[a kw] calls IH]; intros w d T r m Hown; [done|].
  cbn [construct_many reinit_many]. unfold bind at 1.
  rewrite (construct_populated _ d _ r m) by done.
  unfold bind, ret.
  pose proof (call_init_frame (S (length (cells w))) m r a kw w) as Hf.
  destruct (call_init _ m r a kw w) as [[[]| |] w2]; cbn [snd] in Hf; try done.
  rewrite (IH w2 d T r m) by by eapply owns_init_frame.
  by rewrite (init_frame_cells_length w w2).
Qed.

(** When [__init__] is the wrapper of an initialized closure, nothing runs. *)
Lemma reinit_many_initialized calls w fuel d cl r :
  cells w !! d = Some cl → _is_initialized cl = true →
  reinit_many (S fuel) (SingletonInit d) r calls w = (Ok (replicate (length calls) r), w).
Proof.
  intros Hd Hi. induction calls as [|[a kw] calls IH]; [done|].
  cbn [reinit_many replicate length]. unfold bind at 1.
  rewrite call_init_singleton. unfold __init__, bind at 1, get_cell at 1.
  rewrite Hd, Hi. cbn [negb]. unfold ret at 1. unfold bind. by rewrite IH.
Qed.

(** ** What [decorator] installs *)

Arguments call_new : simpl never.
Arguments call_init : simpl never.

Lemma lookup_alter_proj {B} (g : class_rec → B) f T (cs : list class_rec) c :
  (∀ cr, g (f cr) = g cr) → g <$> alter f T cs !! c = g <$> cs !! c.
Proof.
  intros H. rewrite list_lookup_alter. case_decide; [subst|done].
  destruct (cs !! c); simpl; by rewrite ?H.
Qed.

Lemma mro_find_alter_inv {A} (attr : class_rec → option A) f T cs mro :
  (∀ cr, attr (f cr) = attr cr) →
  mro_find (alter f T cs) attr mro = mro_find cs attr mro.
Proof.
  intros H. induction mro as [|c mro IH]; [done|]. simpl. rewrite IH.
  assert (alter f T cs !! c ≫= attr = cs !! c ≫= attr) as ->; [|done].
  rewrite list_lookup_alter. case_decide; [subst|done].
  destruct (cs !! c); simpl; by rewrite ?H.
Qed.

Lemma class_init_alter w f T c :
  (∀ cr, own_init (f cr) = own_init cr) → (∀ cr, cbases (f cr) = cbases cr) →
  class_init (with_classes (alter f T) w) c = class_init w c.
Proof.
  intros Hi Hb. unfold class_init, class_mro, with_classes. cbn [classes].
  by rewrite lookup_alter_proj, mro_find_alter_inv.
Qed.

Lemma class_name_lookup w T cr : classes w !! T = Some cr → class_name w T = cname cr.
Proof. intros H. unfold class_name. by rewrite H. Qed.

Lemma class_new_own w T cr m :
  classes w !! T = Some cr → own_new cr = Some m → class_new w T = m.
Proof. intros H Hm. unfold class_new, class_mro. cbn [mro_find]. rewrite H. simpl. by rewrite Hm. Qed.

Lemma class_init_own w T cr m :
  classes w !! T = Some cr → own_init cr = Some m → class_init w T = m.
Proof. intros H Hm. unfold class_init, class_mro. cbn [mro_find]. rewrite H. simpl. by rewrite Hm. Qed.

Lemma class_flag_own w T cr s :
  classes w !! T = Some cr → own_flag cr = Some s → class_flag w T = Some s.
Proof. intros H Hm. unfold class_flag, class_mro. cbn [mro_find]. rewrite H. simpl. by rewrite Hm. Qed.

Lemma decorator_class k T w cr :
  classes w !! T = Some cr →
  let d := length (cells w) in
  let w0 := (decorator k (VClass T) w).2 in
  decorator k (VClass T) w = (Ok (VClass T), w0) ∧
  cells w0 = (cells w ++ [closure_of k T w])%list ∧
  heap w0 = heap w ∧
  class_new w0 T = SingletonNew d ∧
  class_init w0 T = (if allow_reassignment k then class_init w T else SingletonInit d) ∧
  class_flag w0 T = Some (class_name w0 T).
Proof.
  intros Hc d w0.
  assert (classes w0 !! T = Some
    {| cname := cname cr; cbases := cbases cr; own_new := Some (SingletonNew d);
       own_init := if allow_reassignment k then own_init cr else Some (SingletonInit d);
       own_flag := Some (cname cr) |}) as Hc0.
  { unfold w0, decorator. rewrite Hc.
    destruct (allow_reassignment k); cbn [snd negb]; unfold class_name; simpl;
      unfold set_own_flag, set_own_new, set_own_init;
      rewrite !list_lookup_alter_eq, Hc; reflexivity. }
  split; [unfold w0, decorator; by rewrite Hc|].
  split; [unfold w0, decorator; rewrite Hc; by destruct (allow_reassignment k)|].
  split; [unfold w0, decorator; rewrite Hc; by destruct (allow_reassignment k)|].
  split; [by eapply class_new_own|]. split.
  - destruct (allow_reassignment k) eqn:Hre; [|by eapply class_init_own].
    unfold w0, decorator. rewrite Hc, Hre. cbn [snd negb].
    unfold set_own_flag, set_own_new. by rewrite !class_init_alter.
  - erewrite class_flag_own, class_name_lookup by done. done.
Qed.

(** ** The first construction call *)

Lemma create_instance_frame fuel d cls a kw w :
  new_frame w (_create_instance (call_new fuel) d cls a kw w).2.
Proof.
  apply (preserves_create_instance new_frame new_frame_refl new_frame_trans
           object_new_new_frame).
  intros m c a' k w'. apply call_new_frame.
Qed.

Lemma new_frame_class_init w w' c : new_frame w w' → class_init w' c = class_init w c.
Proof. intros (Hc & _). unfold class_init, class_mro. by rewrite Hc. Qed.

Lemma new_frame_class_new w w' c : new_frame w w' → class_new w' c = class_new w c.
Proof. intros (Hc & _). unfold class_new, class_mro. by rewrite Hc. Qed.

Lemma init_frame_class_init w w' c : init_frame w w' → class_init w' c = class_init w c.
Proof. intros (Hc & _). unfold class_init, class_mro. by rewrite Hc. Qed.

Lemma init_frame_class_new w w' c : init_frame w w' → class_new w' c = class_new w c.
Proof. intros (Hc & _). unfold class_new, class_mro. by rewrite Hc. Qed.

(** [__new__] on the decorated class with an empty slot: what it returns is
    in the slot afterwards. *)
Lemma new_original_empty_ok fuel w d cl rest kw r w3 :
  cells w !! d = Some cl → _instance cl = None →
  __new__ (call_new fuel) d (original_cls cl) rest kw w = (Ok r, w3) →
  new_frame w w3 ∧
  ∃ c3, cells w3 !! d = Some c3 ∧ original_cls c3 = original_cls cl ∧
        _instance c3 = Some r ∧ _original_init c3 = _original_init cl ∧
        _is_initialized c3 = _is_initialized cl.
Proof.
  intros Hd Hnone Hnew.
  rewrite (new_original_empty _ _ _ cl) in Hnew by done.
  unfold bind at 1 in Hnew.
  pose proof (create_instance_frame fuel d (original_cls cl)
                (VClass (original_cls cl) :: rest) kw w) as Hf.
  destruct (_create_instance _ _ _ _ _ w) as [[r'| |] w2]; try done.
  cbn [snd] in Hf.
  destruct Hf as (Hc & Hs & Hi & ext & Hh).
  destruct (frame_cell_static _ _ _ _ Hs Hd) as (c2 & Hd2 & Hst).
  assert (_is_initialized c2 = _is_initialized cl) as Hflag by by eapply frame_lookup.
  unfold bind at 1, set_instance at 1 in Hnew.
  unfold bind at 1, get_cell at 1 in Hnew. cbn [cells with_cells] in Hnew.
  rewrite list_lookup_alter_eq, Hd2 in Hnew. simpl in Hnew.
  injection Hnew as <- <-. split.
  - repeat split; simpl; try done.
    + by rewrite fmap_alter_inv.
    + by rewrite fmap_alter_inv.
    + by exists ext.
  - eexists. split; [simpl; by rewrite list_lookup_alter_eq, Hd2|].
    unfold cell_static in Hst. simpl. repeat split; congruence.
Qed.

(** The first successful construction call on a decorated class leaves its
    closure owning the instance it returned; when [__init__] of the class is
    the wrapper of that closure, the closure is initialized afterwards. *)
Lemma first_call w d cl a kw r w1 :
  cells w !! d = Some cl → _instance cl = None →
  class_new w (original_cls cl) = SingletonNew d →
  construct (original_cls cl) a kw w = (Ok r, w1) →
  obj_class <$> heap w1 !! r = Some (original_cls cl) →
  owns w1 d (original_cls cl) r (class_init w (original_cls cl)) ∧
  length (cells w1) = length (cells w) ∧
  (class_init w (original_cls cl) = SingletonInit d →
     ∃ c1, cells w1 !! d = Some c1 ∧ _is_initialized c1 = true).
Proof.
  intros Hd Hnone Hcn Hc Hobj. set (T := original_cls cl) in *.
  unfold construct in Hc. unfold bind at 1 in Hc.
  rewrite Hcn, call_new_singleton in Hc.
  destruct (__new__ _ d T a kw w) as [[r'| |] w3] eqn:Hnew; try done.
  destruct (new_original_empty_ok _ _ _ _ _ _ _ _ Hd Hnone Hnew)
    as (Hf & c3 & Hd3 & Hcls3 & Hr3 & Hoi3 & Hfl3).
  destruct (heap w3 !! r') as [o|] eqn:Ho; [|done].
  assert (call_init (S (length (cells w))) (class_init w T) r a kw w3 = (Ok tt, w1)
          ∧ r' = r) as [Hci ->].
  { destruct (isinstance w3 o T) eqn:Hinst.
    - unfold bind in Hc.
      pose proof (call_init_frame (S (length (cells w)))
                    (class_init w3 (obj_class o)) r' a kw w3) as Hfi.
      destruct (call_init _ _ r' a kw w3) as [[[]| |] w4] eqn:Hci; try done.
      injection Hc as -> ->. split; [|done].
      destruct Hfi as (_ & _ & _ & Hh). cbn [snd] in Hh.
      assert (obj_class o = T) as Ho'.
      { rewrite <-list_lookup_fmap, Hh, list_lookup_fmap, Ho in Hobj.
        by injection Hobj. }
      by rewrite Ho', (new_frame_class_init w w3) in Hci.
    - injection Hc as -> ->. rewrite Ho in Hobj. injection Hobj as Hobj.
      unfold isinstance in Hinst. by rewrite Hobj, issubclass_refl in Hinst. }
  pose proof (call_init_frame (S (length (cells w))) (class_init w T) r a kw w3) as Hfi.
  rewrite Hci in Hfi. cbn [snd] in Hfi.
  assert (length (cells w1) = length (cells w)) as Hlen.
  { rewrite (init_frame_cells_length w3 w1) by done.
    destruct Hf as (_ & Hs & _). by eapply frame_cells_length. }
  split; [|split; [done|]].
  - eapply owns_init_frame; [|exact Hfi]. split.
    + by exists c3.
    + by rewrite (new_frame_class_new w w3).
    + by rewrite (new_frame_class_init w w3).
    + rewrite Ho. simpl. f_equal.
      destruct Hfi as (_ & _ & _ & Hh).
      rewrite <-list_lookup_fmap, Hh, list_lookup_fmap, Ho in Hobj. by injection Hobj.
  - intros Hinit. rewrite Hinit, call_init_singleton in Hci.
    unfold __init__, bind at 1, get_cell at 1 in Hci. rewrite Hd3 in Hci.
    destruct (_is_initialized c3) eqn:Hflag; cbn [negb] in Hci.
    + injection Hci as <-. by exists c3.
    + unfold bind in Hci.
      pose proof (call_init_frame (length (cells w)) (_original_init c3) r a kw w3) as Hf4.
      destruct (call_init _ (_original_init c3) r a kw w3) as [[[]| |] w4]; try done.
      cbn [snd] in Hf4. destruct Hf4 as (_ & Hs4 & _).
      destruct (frame_cell_static _ _ _ _ Hs4 Hd3) as (c4 & Hd4 & _).
      unfold set_initialized in Hci. injection Hci as <-.
      eexists. split; [simpl; by rewrite list_lookup_alter_eq, Hd4|done].
Qed.

(** The first construction call on a class that had [object.__new__] and an
    [__init__] of its own before the decoration: a new object at the next
    free address, whose [__dict__] is what that [__init__] makes of the
    empty one with the arguments of the call. *)
Lemma first_call_fresh w T cr k f a kw :
  classes w !! T = Some cr → class_new w T = ObjectNew → class_init w T = UserInit f →
  let r := length (heap w) in
  let res := (decorator k (VClass T) ;;; construct T a kw) w in
  res.1 = match (f a kw ∅).2 with None => Ok r | Some e => Raise e end ∧
  heap res.2 = (heap w ++ [{| obj_class := T; obj_dict := (f a kw ∅).1 |}])%list.
Proof.
  intros Hc Hon Hoi r res.
  destruct (decorator_class k T w cr Hc) as (Hdec & Hcells & Hheap & Hnew & Hinit & _).
  set (w0 := (decorator k (VClass T) w).2) in *.
  set (d := length (cells w)) in *.
  assert (cells w0 !! d = Some (closure_of k T w)) as Hd.
  { rewrite Hcells. by apply list_lookup_middle. }
  set (o := {| obj_class := T; obj_dict := ∅ |}).
  set (w3 := with_cells (alter (λ c,
     {| original_cls := original_cls c; cfg := cfg c;
        _instance := Some r; _is_initialized := _is_initialized c;
        _original_new := _original_new c; _original_init := _original_init c |}) d)
     (with_heap (λ h, (h ++ [o])%list) w0)).
  assert (__new__ (call_new (length (cells w0))) d T a kw w0 = (Ok r, w3)) as Hn.
  { change T with (original_cls (closure_of k T w)) at 1.
    rewrite (new_original_empty _ _ _ (closure_of k T w)) by done.
    unfold bind at 1. unfold _create_instance, bind at 1, get_cell at 1.
    rewrite Hd. cbn [closure_of _original_new original_cls]. rewrite Hon.
    cbn [new_is_object]. unfold object_new. cbn [excess_args andb].
    rewrite Hheap. fold r. fold o.
    unfold bind at 1, set_instance at 1. fold w3.
    unfold bind, get_cell. unfold w3 at 1. cbn [cells with_cells with_heap].
    rewrite list_lookup_alter_eq, Hd. reflexivity. }
  assert (heap w3 !! r = Some o) as Hr.
  { unfold w3. cbn [heap with_cells with_heap]. rewrite Hheap. by apply list_lookup_middle. }
  assert (classes w3 = classes w0) as Hc3 by reflexivity.
  assert (class_init w3 T = class_init w0 T) as Hi3.
  { unfold class_init, class_mro. by rewrite Hc3. }
  assert (construct T a kw w0 =
          (call_init (S (length (cells w0))) (class_init w0 T) r a kw ;;; ret r) w3) as Hct.
  { unfold construct. unfold bind at 1. rewrite Hnew, call_new_singleton, Hn, Hr.
    unfold isinstance. cbn [obj_class o]. by rewrite issubclass_refl, Hi3. }
  assert (user_init f r a kw w3 =
    (match (f a kw ∅).2 with None => Ok tt | Some e => Raise e end,
     with_heap (<[r := {| obj_class := T; obj_dict := (f a kw ∅).1 |}]>) w3)) as Hu.
  { unfold user_init. rewrite Hr. cbn [obj_dict obj_class o].
    by destruct (f a kw ∅) as [fl [e|]]. }
  assert (heap (with_heap (<[r := {| obj_class := T; obj_dict := (f a kw ∅).1 |}]>) w3)
          = (heap w ++ [{| obj_class := T; obj_dict := (f a kw ∅).1 |}])%list) as Hh.
  { unfold w3. cbn [heap with_cells with_heap]. rewrite Hheap. unfold r.
    by rewrite insert_app_r_alt, Nat.sub_diag. }
  assert (res = (call_init (S (length (cells w0))) (class_init w0 T) r a kw ;;; ret r) w3)
    as ->.
  { unfold res. unfold bind at 1. by rewrite Hdec, Hct. }
  rewrite Hinit. rewrite <-Hh. destruct (allow_reassignment k).
  - rewrite Hoi. unfold bind.
    change (call_init _ (UserInit f) r a kw) with (user_init f r a kw). rewrite Hu.
    by destruct ((f a kw ∅).2).
  - rewrite call_init_singleton. unfold __init__, bind, get_cell.
    assert (cells w3 !! d = Some {| original_cls := T; cfg := k; _instance := Some r;
      _is_initialized := false; _original_new := class_new w T;
      _original_init := class_init w T |}) as ->.
    { unfold w3. cbn [cells with_cells with_heap]. by rewrite list_lookup_alter_eq, Hd. }
    cbn [_is_initialized negb _original_init]. rewrite Hoi.
    assert (call_init (length (cells w0)) (UserInit f) r a kw = user_init f r a kw) as ->.
    { by destruct (length (cells w0)). }
    rewrite Hu. by destruct ((f a kw ∅).2).
Qed.

(** ** Reassignment *)




(** ** Double-checked locking *)

Section Locking.
Import Threads.
Variable raises : nat → bool.

Lemma ok_crit_lock s t p : crit p = true → ok s t p → lock s = true.
Proof. destruct p; simpl; try done; by intros _ [? _]. Qed.

Lemma ok_goto s t p t' p' : ok (goto t p s) t' p' ↔ ok s t' p'.
Proof. by destruct p'. Qed.

(** Outside the [with] block only [_instance] and the runs matter. *)
Lemma ok_other s s' t p :
  crit p = false → slot s' = slot s → built s' = built s → ok s t p → ok s' t p.
Proof.
  intros Hc Hs Hb. destruct p; simpl in *; try done; unfold settled; by rewrite ?Hs, ?Hb.
Qed.

(** While [_instance] is [None], a thread outside the [with] block is
    before it, or its own run has raised. *)
Lemma ok_other_none s s' t p :
  crit p = false → slot s = None →
  (∀ r u, built s !! r = Some (u, Raised) → built s' !! r = Some (u, Raised)) →
  ok s t p → ok s' t p.
Proof.
  intros Hc Hs Hb. destruct p; simpl in *; try done.
  - intros (l & u & ? & _). congruence.
  - intros (_ & l & u & ? & _). congruence.
  - intros [r Hr]. eauto.
Qed.

Lemma built_snoc_lookup (l : list (nat * progress)) x r u :
  (l ++ [x])%list !! r = Some (u, Raised) → x.2 ≠ Raised → l !! r = Some (u, Raised).
Proof.
  intros H Hx. apply lookup_app_Some in H as [H|[_ H]]; [done|].
  by destruct (r - length l); simplify_eq/=.
Qed.

Lemma built_snoc_insert (l : list (nat * progress)) x y r :
  S r = length (l ++ [x])%list → <[r := y]> (l ++ [x])%list = (l ++ [y])%list.
Proof.
  rewrite length_app. simpl. intros H.
  assert (r = length l) as -> by lia. by rewrite insert_app_r_alt, Nat.sub_diag.
Qed.

Lemma inv_init n : inv raises (init n).
Proof.
  split; simpl.
  - intros t p [-> _]%lookup_replicate. done.
  - intros t1 t2 p1 p2 [-> _]%lookup_replicate. done.
  - done.
  - left. split; [done|constructor].
  - done.
Qed.

Lemma free_not_crit s t p :
  inv raises s → lock s = false → pcs s !! t = Some p → crit p = false.
Proof.
  intros [Hok _ _ _ _] Hl Ht. destruct (crit p) eqn:Hc; [|done].
  pose proof (ok_crit_lock s t p Hc (Hok _ _ Ht)). congruence.
Qed.

(** Thread [t] moves from [p] to [q] while the shared variables change
    from those of [s] to those of [s0]. *)
Lemma inv_goto s s0 t p q :
  inv raises s → pcs s !! t = Some p → pcs s0 = pcs s →
  ok s0 t q →
  (∀ t' p', t' ≠ t → pcs s !! t' = Some p' → ok s t' p' → ok s0 t' p') →
  (crit q = true → crit p = true ∨ lock s = false) →
  (lock s0 = true → crit q = true ∨ crit p = false ∧ lock s = true) →
  (idle s0 ∨ (lock s0 = true ∧ ∃ u st, st ≠ Raised ∧ pending s0 u st) ∨ settled s0) →
  (∀ r u, built s0 !! r = Some (u, Raised) → raises r = true) →
  inv raises (goto t q s0).
Proof.
  intros Hinv Ht Hpcs Hq Hothers Henter Hhold Hbuilt Hraised.
  pose proof Hinv as [Hok Hmx Hh _ _].
  pose proof (lookup_lt_Some _ _ _ Ht) as Hlt.
  split; simpl; rewrite ?Hpcs.
  - intros t' p' [(<- & <- & _) | [Hne Ht']]%list_lookup_insert_Some.
    + by apply ok_goto.
    + apply ok_goto. apply Hothers; auto.
  - assert (∀ t' p', t ≠ t' → pcs s !! t' = Some p' → crit q = true →
              crit p' = true → False) as Hone.
    { intros t' p' Hne Ht' Hcq Hc'. destruct (Henter Hcq) as [Hcp|Hfree].
      - apply Hne. by eapply Hmx.
      - pose proof (free_not_crit s t' p' Hinv Hfree Ht'). congruence. }
    intros t1 t2 p1 p2 [(<- & <- & _) | [Hne1 Ht1]]%list_lookup_insert_Some
      [(<- & <- & _) | [Hne2 Ht2]]%list_lookup_insert_Some Hc1 Hc2; try done.
    + exfalso. by eapply Hone.
    + exfalso. by eapply Hone.
    + by eapply Hmx.
  - intros Hl. destruct (Hhold Hl) as [Hcq|[Hcp Hls]].
    + exists t, q. split; [|done]. by apply list_lookup_insert_eq.
    + destruct (Hh Hls) as (t' & p' & Ht' & Hc'). exists t', p'. split; [|done].
      rewrite list_lookup_insert_ne; [done|]. intros <-. simplify_eq. congruence.
  - exact Hbuilt.
  - exact Hraised.
Qed.

(** A thread inside the [with] block is the only one there. *)
Lemma others_not_crit s t p t' p' :
  inv raises s → pcs s !! t = Some p → crit p = true → t' ≠ t → pcs s !! t' = Some p' →
  crit p' = false.
Proof.
  intros [_ Hmx _ _ _] Ht Hc Hne Ht'. destruct (crit p') eqn:Hc'; [|done].
  destruct Hne. by eapply Hmx.
Qed.

Lemma inv_step t s s' : inv raises s → step_thread raises t s = Some s' → inv raises s'.
Proof.
  intros Hinv Hs. pose proof Hinv as [Hok Hmx Hh Hb Hra].
  unfold step_thread in Hs.
  destruct (pcs s !! t) as [p|] eqn:Ht; [|done].
  pose proof (Hok _ _ Ht) as Hp.
  destruct p; simpl in Hp.
  - (* Check1 *)
    injection Hs as <-.
    eapply inv_goto; [exact Hinv | exact Ht | reflexivity | | | | | exact Hb | exact Hra].
    + destruct (slot s) eqn:Hsl; simpl; [|done].
      destruct Hb as [[? _]|[(_ & ? & ? & _ & ? & _)|?]]; [congruence..|done].
    + done.
    + by destruct (slot s).
    + intros Hl. by right.
  - (* Acquire *)
    destruct (lock s) eqn:Hl; [done|]. injection Hs as <-.
    eapply inv_goto; [exact Hinv | exact Ht | reflexivity | | | | | | exact Hra]; simpl.
    + split; [done|]. destruct Hb as [Hb|[Hb|Hb]].
      * by left.
      * by destruct Hb as [? _].
      * by right.
    + intros t' p' Hne Ht' Hp'. eapply (ok_other s); [|done..].
      by eapply free_not_crit.
    + by right.
    + by left.
    + destruct Hb as [Hb|[Hb|Hb]].
      * by left.
      * by destruct Hb as [? _].
      * by right; right.
  - (* Check2 *)
    destruct Hp as [Hl Hp]. injection Hs as <-.
    eapply inv_goto; [exact Hinv | exact Ht | reflexivity | | | | | exact Hb | exact Hra].
    + destruct Hp as [[Hsl Hbu]|(l & u & Hsl & Hbu)]; rewrite Hsl; simpl.
      * done.
      * split; [done|]. by exists l, u.
    + done.
    + intros _. by left.
    + intros _. left. by destruct (slot s).
  - (* Create *)
    destruct Hp as (Hl & Hsl & Hbu). injection Hs as <-.
    eapply inv_goto; [exact Hinv | exact Ht | reflexivity | | | | | | ]; simpl.
    + split; [done|]. split; [split; [done|by exists (built s)]|].
      rewrite length_app. simpl. lia.
    + intros t' p' Hne Ht' Hp'. eapply (ok_other_none s); [|done| |done].
      * by eapply (others_not_crit s t Create).
      * intros r u Hr. simpl. by apply lookup_app_l_Some.
    + intros _. by left.
    + intros _. by left.
    + right. left. split; [done|]. exists t, Running. split; [done|].
      split; [done|]. by exists (built s).
    + intros r u Hr. apply built_snoc_lookup in Hr; [|done]. by eapply Hra.
  - (* Finish *)
    destruct Hp as (Hl & (Hsl & l & Hbu & Hall) & Hlen).
    assert (∀ y, <[r := y]> (built s) = (l ++ [y])%list) as Hins.
    { intros y. rewrite Hbu. apply built_snoc_insert. by rewrite <-Hbu. }
    assert (∀ r' u, l !! r' = Some (u, Raised) → raises r' = true) as Hra'.
    { intros r' u Hr'. apply (Hra r' u). rewrite Hbu. by apply lookup_app_l_Some. }
    assert (r = length l) as Hr.
    { rewrite Hbu, length_app in Hlen. simpl in Hlen. lia. }
    destruct (raises r) eqn:Hraise; injection Hs as <-.
    + eapply inv_goto; [exact Hinv | exact Ht | reflexivity | | | | | | ]; simpl.
      * split; [done|]. rewrite Hins. split.
        -- split; [done|]. apply Forall_app. split; [done|]. by constructor.
        -- exists r. subst r. by apply list_lookup_middle.
      * intros t' p' Hne Ht' Hp'. eapply (ok_other_none s); [|done| |done].
        -- by eapply (others_not_crit s t (Finish r)).
        -- intros r' u Hr'. simpl. rewrite Hins. rewrite Hbu in Hr'.
           apply built_snoc_lookup in Hr'; [|done]. by apply lookup_app_l_Some.
      * intros _. by left.
      * intros _. by left.
      * left. split; [done|]. rewrite Hins. apply Forall_app. split; [done|].
        by constructor.
      * intros r' u Hr'. rewrite Hins in Hr'.
        apply lookup_app_Some in Hr' as [Hr'|[Hge Hr']]; [by eapply Hra'|].
        assert (r' = r) as ->; [|done].
        apply lookup_lt_Some in Hr'. simpl in Hr'. lia.
    + eapply inv_goto; [exact Hinv | exact Ht | reflexivity | | | | | | ]; simpl.
      * split; [done|]. rewrite Hins. split; [split; [done|by exists l]|].
        rewrite length_app. simpl. lia.
      * intros t' p' Hne Ht' Hp'. eapply (ok_other_none s); [|done| |done].
        -- by eapply (others_not_crit s t (Finish r)).
        -- intros r' u Hr'. simpl. rewrite Hins. rewrite Hbu in Hr'.
           apply built_snoc_lookup in Hr'; [|done]. by apply lookup_app_l_Some.
      * intros _. by left.
      * intros _. by left.
      * right. left. split; [done|]. exists t, Returned. split; [done|].
        split; [done|]. rewrite Hins. by exists l.
      * intros r' u Hr'. rewrite Hins in Hr'.
        apply built_snoc_lookup in Hr'; [|done]. by eapply Hra'.
  - (* Store *)
    destruct Hp as (Hl & (Hsl & l & Hbu & Hall) & Hlen).
    assert (r = length l) as Hr.
    { rewrite Hbu, length_app in Hlen. simpl in Hlen. lia. }
    injection Hs as <-.
    eapply inv_goto; [exact Hinv | exact Ht | reflexivity | | | | | | exact Hra]; simpl.
    + split; [done|]. exists l, t. simpl. by rewrite Hr.
    + intros t' p' Hne Ht' Hp'. eapply (ok_other_none s); [|done| |done].
      * by eapply (others_not_crit s t (Store r)).
      * done.
    + intros _. by left.
    + intros _. by left.
    + right. right. exists l, t. simpl. by rewrite Hr.
  - (* Release *)
    destruct Hp as (Hl & Hset). injection Hs as <-.
    eapply inv_goto; [exact Hinv | exact Ht | reflexivity | | | | | | exact Hra]; simpl.
    + done.
    + intros t' p' Hne Ht' Hp'. eapply (ok_other s); [|done..].
      by eapply (others_not_crit s t Release).
    + done.
    + done.
    + by right; right.
  - (* Return *)
    injection Hs as <-.
    eapply inv_goto; [exact Hinv | exact Ht | reflexivity | | | | | exact Hb | exact Hra].
    + done.
    + done.
    + done.
    + intros Hl. by right.
  - done.
  - (* Unwind *)
    destruct Hp as (Hl & Hidle & Hmine). injection Hs as <-.
    eapply inv_goto; [exact Hinv | exact Ht | reflexivity | | | | | | exact Hra]; simpl.
    + done.
    + intros t' p' Hne Ht' Hp'. eapply (ok_other s); [|done..].
      by eapply (others_not_crit s t Unwind).
    + done.
    + done.
    + by left.
  - done.
Qed.

Lemma inv_run sched : ∀ s, inv raises s → inv raises (run raises sched s).
Proof.
  induction sched as [|t sched IH]; intros s Hinv; [done|].
  simpl. apply IH. destruct (step_thread raises t s) as [s'|] eqn:Hs; [|done].
  by eapply inv_step.
Qed.

(** No deadlock: while the call of a thread is not over, some thread can
    move. *)
Lemma inv_progress s t p :
  inv raises s → pcs s !! t = Some p → rank p ≠ 0 →
  ∃ t', is_Some (step_thread raises t' s).
Proof.
  intros Hinv Ht Hr.
  assert (∀ t' p', pcs s !! t' = Some p' → crit p' = true →
            is_Some (step_thread raises t' s)) as Hcrit.
  { intros t' p' Ht' Hc. unfold step_thread. rewrite Ht'.
    destruct p'; try done. by destruct (raises r). }
  destruct (lock s) eqn:Hl.
  - destruct (inv_holder raises s Hinv Hl) as (t' & p' & Ht' & Hc'). eauto.
  - exists t. unfold step_thread. rewrite Ht, Hl. destruct p; try done.
    by destruct (raises r).
Qed.

(** Every step brings the thread that takes it nearer to the end of its
    call. *)
Lemma step_rank t s s' p :
  step_thread raises t s = Some s' → pcs s !! t = Some p →
  ∃ q, pcs s' = <[t := q]> (pcs s) ∧ rank q < rank p.
Proof.
  intros Hs Ht. unfold step_thread in Hs. rewrite Ht in Hs.
  destruct p; try destruct (lock s); try destruct (slot s); try destruct (raises r);
    simplify_eq/=; eexists; (split; [reflexivity|simpl; lia]).
Qed.

Lemma total_rank_insert (l : list pc) t p q :
  l !! t = Some p → rank q < rank p →
  sum_list (rank <$> <[t := q]> l) < sum_list (rank <$> l).
Proof.
  revert t. induction l as [|x l IH]; intros [|t] Ht Hlt; simplify_eq/=; [lia|].
  specialize (IH t Ht Hlt). lia.
Qed.

Lemma run_app sched1 sched2 s :
  run raises (sched1 ++ sched2) s = run raises sched2 (run raises sched1 s).
Proof. revert s. induction sched1 as [|t sched1 IH]; intros s; [done|]. simpl. apply IH. Qed.

Lemma step_length t s s' :
  step_thread raises t s = Some s' → length (pcs s') = length (pcs s).
Proof.
  unfold step_thread. intros Hs.
  destruct (pcs s !! t) as [[]|]; try destruct (lock s); try destruct (raises r);
    simplify_eq/=; by rewrite length_insert.
Qed.

Lemma run_length sched : ∀ s, length (pcs (run raises sched s)) = length (pcs s).
Proof.
  induction sched as [|t sched IH]; intros s; [done|]. simpl. rewrite IH.
  destruct (step_thread raises t s) as [s'|] eqn:Hs; [|done]. by eapply step_length.
Qed.

(** Every execution can be continued until the call of every thread is
    over. *)
Lemma can_finish s :
  inv raises s → ∃ sched, Forall (λ p, rank p = 0) (pcs (run raises sched s)).
Proof.
  remember (total_rank s) as m eqn:Hm. revert s Hm.
  induction (lt_wf m) as [m _ IH]. intros s -> Hinv.
  destruct (decide (Forall (λ p, rank p = 0) (pcs s))) as [Hall|Hsome].
  - by exists [].
  - apply not_Forall_Exists, Exists_exists in Hsome; [|apply _].
    destruct Hsome as (p & [t Ht]%list_elem_of_lookup & Hp).
    destruct (inv_progress s t p Hinv Ht Hp) as (t' & s' & Hs').
    assert (total_rank s' < total_rank s) as Hlt.
    { assert (is_Some (pcs s !! t')) as [p' Ht'].
      { unfold step_thread in Hs'. destruct (pcs s !! t'); [eauto|done]. }
      destruct (step_rank t' s s' p' Hs' Ht') as (q & Hq & Hr).
      unfold total_rank. rewrite Hq. by eapply total_rank_insert. }
    destruct (IH _ Hlt s' eq_refl (inv_step _ _ _ Hinv Hs')) as [sched Hsched].
    exists (t' :: sched). simpl. by rewrite Hs'.
Qed.

(** The runs that have not raised: there is at most one, the last. *)
Lemma inv_last_run s r u st :
  inv raises s → built s !! r = Some (u, st) → st ≠ Raised → S r = length (built s).
Proof.
  intros Hinv Hr Hst.
  assert (∀ l x, built s = (l ++ [x])%list → all_raised l → S r = length (built s)) as H.
  { intros l x Hbu Hall. rewrite Hbu in Hr |- *. rewrite length_app. simpl.
    apply lookup_app_Some in Hr as [Hr|[Hge Hr]].
    - by pose proof (Forall_lookup_1 _ _ _ _ Hall Hr).
    - apply lookup_lt_Some in Hr. simpl in Hr. lia. }
  destruct (inv_built raises s Hinv) as [[_ Hall]|[(_ & t & st' & _ & _ & l & Hbu & Hall)
    |(l & u' & _ & Hbu & Hall)]].
  - by pose proof (Forall_lookup_1 _ _ _ _ Hall Hr).
  - by eapply H.
  - by eapply H.
Qed.

(** When no run raises there is at most one run. *)
Lemma inv_one_run s :
  inv raises s → (∀ r, raises r = false) → (length (built s) ≤ 1)%nat.
Proof.
  intros Hinv Hno.
  assert (∀ l, all_raised l → (∀ r u, l !! r = Some (u, Raised) → raises r = true) →
            l = []) as Hnil.
  { intros [|[u st] l] Hall Hra; [done|]. apply Forall_cons in Hall as [Hst _].
    simpl in Hst. subst st. specialize (Hra 0 u eq_refl). by rewrite Hno in Hra. }
  assert (∀ l x, built s = (l ++ [x])%list → all_raised l → (length (built s) ≤ 1)%nat) as H.
  { intros l x Hbu Hall. rewrite Hbu, (Hnil l Hall); [done|].
    intros r u Hr. apply (inv_raised raises s Hinv r u). rewrite Hbu.
    by apply lookup_app_l_Some. }
  destruct (inv_built raises s Hinv) as [[_ Hall]|[(_ & t & st' & _ & _ & l & Hbu & Hall)
    |(l & u' & _ & Hbu & Hall)]].
  - rewrite (Hnil _ Hall); [simpl; lia|]. apply (inv_raised raises s Hinv).
  - by eapply H.
  - by eapply H.
Qed.

Lemma settled_slot s :
  settled s → ∃ r u, slot s = Some r ∧ built s !! r = Some (u, Returned).
Proof.
  intros (l & u & Hsl & Hbu & _). exists (length l), u. split; [done|].
  rewrite Hbu. by apply list_lookup_middle.
Qed.
End Locking.

(** C9, as amended.  Any number [n] of threads make the first construction
    call of a class decorated with [thread_safe=True], interleaved in any
    way, and each run of the original construction logic returns or raises.
    At every moment: at most one run has not raised, so no two runs overlap
    and at most one returns; a caller that has returned has returned the
    object of the run that returned, after it returned, and that object is
    in [_instance]; two callers that have returned have returned the same
    object; a caller has raised only after a run of its own raised; while a
    call is not over some thread can move; and the execution can be
    continued until every call is over, the lock is free, and every caller
    has raised or has returned the object in [_instance].  When no run
    raises, exactly one thread has then run the construction logic and every
    caller has returned its object. *)
Theorem double_checked_locking (raises : nat → bool) (n : nat) (sched : list nat) :
  let s := Threads.run raises sched (Threads.init n) in
  (∀ r1 r2 u1 u2 st1 st2,
     Threads.built s !! r1 = Some (u1, st1) → Threads.built s !! r2 = Some (u2, st2) →
     st1 ≠ Threads.Raised → st2 ≠ Threads.Raised → r1 = r2) ∧
  (∀ t v, Threads.pcs s !! t = Some (Threads.Done v) →
     ∃ r u, v = Some r ∧ Threads.slot s = Some r ∧
            Threads.built s !! r = Some (u, Threads.Returned)) ∧
  (∀ t1 t2 v1 v2, Threads.pcs s !! t1 = Some (Threads.Done v1) →
     Threads.pcs s !! t2 = Some (Threads.Done v2) → v1 = v2) ∧
  (∀ t, Threads.pcs s !! t = Some Threads.Failed →
     ∃ r, Threads.built s !! r = Some (t, Threads.Raised) ∧ raises r = true) ∧
  (∀ t p, Threads.pcs s !! t = Some p → Threads.over p = false →
     ∃ t', is_Some (Threads.step_thread raises t' s)) ∧
  (∃ more, let s' := Threads.run raises (sched ++ more) (Threads.init n) in
     length (Threads.pcs s') = n ∧ Threads.lock s' = false ∧
     (∀ t, t < n →
        Threads.pcs s' !! t = Some Threads.Failed ∨
        is_Some (Threads.slot s') ∧
          Threads.pcs s' !! t = Some (Threads.Done (Threads.slot s'))) ∧
     ((∀ r, raises r = false) → 0 < n →
        (∃ u, Threads.built s' = [(u, Threads.Returned)]) ∧
        ∀ t, t < n → Threads.pcs s' !! t = Some (Threads.Done (Some 0)))).
Proof.
  intros s.
  assert (Threads.inv raises s) as Hinv by apply inv_run, inv_init.
  assert (∀ s0 t v, Threads.inv raises s0 → Threads.pcs s0 !! t = Some (Threads.Done v) →
     ∃ r u, v = Some r ∧ Threads.slot s0 = Some r ∧
            Threads.built s0 !! r = Some (u, Threads.Returned)) as Hdone.
  { intros s0 t v Hinv0 Ht. destruct (Threads.inv_ok raises s0 Hinv0 t _ Ht) as [-> Hset].
    destruct (settled_slot s0 Hset) as (r & u & Hsl & Hbu). by exists r, u. }
  assert (∀ s0 t, Threads.inv raises s0 → Threads.pcs s0 !! t = Some Threads.Failed →
     ∃ r, Threads.built s0 !! r = Some (t, Threads.Raised) ∧ raises r = true) as Hfail.
  { intros s0 t Hinv0 Ht. destruct (Threads.inv_ok raises s0 Hinv0 t _ Ht) as [r Hr].
    exists r. split; [done|]. by eapply Threads.inv_raised. }
  split; [|split; [|split; [|split; [|split]]]].
  - intros r1 r2 u1 u2 st1 st2 H1 H2 Hn1 Hn2.
    pose proof (inv_last_run raises s r1 u1 st1 Hinv H1 Hn1).
    pose proof (inv_last_run raises s r2 u2 st2 Hinv H2 Hn2). lia.
  - intros t v. by apply Hdone.
  - intros t1 t2 v1 v2 (r1 & _ & -> & Hs1 & _)%Hdone (r2 & _ & -> & Hs2 & _)%Hdone;
      [congruence|done..].
  - intros t. by apply Hfail.
  - intros t p Ht Hp. eapply inv_progress; [done..|]. by destruct p.
  - destruct (can_finish raises s Hinv) as [more Hmore]. exists more.
    rewrite run_app. fold s. set (s' := Threads.run raises more s) in *.
    assert (Threads.inv raises s') as Hinv' by by apply inv_run.
    assert (length (Threads.pcs s') = n) as Hlen.
    { unfold s', s. rewrite !run_length. apply length_replicate. }
    assert (∀ t, t < n →
        Threads.pcs s' !! t = Some Threads.Failed ∨
        is_Some (Threads.slot s') ∧
          Threads.pcs s' !! t = Some (Threads.Done (Threads.slot s'))) as Hall.
    { intros t Ht. rewrite <-Hlen in Ht.
      destruct (lookup_lt_is_Some_2 _ _ Ht) as [p Hp].
      pose proof (Forall_lookup_1 _ _ _ _ Hmore Hp) as Hr.
      destruct p; try done; [|by left]. right.
      destruct (Hdone s' t v Hinv' Hp) as (r & _ & -> & Hsl & _).
      rewrite Hsl. eauto. }
    split; [done|]. split; [|split; [done|]].
    + destruct (Threads.lock s') eqn:Hl; [|done].
      destruct (Threads.inv_holder raises s' Hinv' Hl) as (t & p & Ht & Hc).
      pose proof (Forall_lookup_1 _ _ _ _ Hmore Ht) as Hr. by destruct p.
    + intros Hno Hn.
      assert (∀ t, t < n → ∃ u, Threads.pcs s' !! t = Some (Threads.Done (Some 0)) ∧
                Threads.built s' = [(u, Threads.Returned)]) as Hzero.
      { intros t Ht. destruct (Hall t Ht) as [Hf|[_ Hd]].
        - destruct (Hfail s' t Hinv' Hf) as (r & _ & Hr). by rewrite Hno in Hr.
        - destruct (Hdone s' t _ Hinv' Hd) as (r & u & Hv & Hsl & Hbu).
          pose proof (inv_one_run raises s' Hinv' Hno) as Hone.
          destruct (Threads.built s') as [|x [|y l]] eqn:Hb; simpl in Hone; [done| |lia].
          destruct r as [|r]; [|done]. simpl in Hbu. injection Hbu as ->.
          exists u. by rewrite Hd, Hsl. }
      split.
      * destruct (Hzero 0 Hn) as (u & _ & Hb). eauto.
      * intros t Ht. by destruct (Hzero t Ht) as (u & Hd & _).
Qed.

Lemma double_checked_locking_witness :
  let raises r := bool_decide (r = 0) in
  let s := Threads.run raises [0; 0; 0; 0; 0; 0; 1; 1; 1; 1; 1; 1; 1; 1]
             (Threads.init 2) in
  Threads.pcs s = [Threads.Failed; Threads.Done (Some 1)] ∧
  ∃ r u, Some 1 = Some r ∧ Threads.slot s = Some r ∧
         Threads.built s !! r = Some (u, Threads.Returned).
Proof.
  intros raises s. split; [reflexivity|].
  destruct (double_checked_locking raises 2 [0; 0; 0; 0; 0; 0; 1; 1; 1; 1; 1; 1; 1; 1])
    as (_ & H & _).
  exact (H 1 (Some 1) eq_refl).
Defined.

(** C9 as stated fails for a class whose original construction logic
    raises, as that of a decorated subclass of a class that does not allow
    subclasses does on every call: every caller runs it, one after the
    other, and no caller gets an instance. *)
Lemma every_caller_runs_raising_construction :
  (let w := (parent_and_child default_config (Some (config_of true false false))
               empty_world).2 in
   (thread_safe ∘ cfg <$> cells w !! 1) = Some true ∧
   (original_cls <$> cells w !! 1) = Some 1 ∧
   _create_instance (call_new 1) 1 1 [VClass 1] [] w
     = (Raise (TypeError "Singleton class Parent cannot be inherited"), w) ∧
   construct 1 [] [] w
     = (Raise (TypeError "Singleton class Parent cannot be inherited"), w)) ∧
  (let s := Threads.run (λ _, true) [0; 1; 0; 0; 0; 0; 0; 1; 1; 1; 1; 1]
              (Threads.init 2) in
   Threads.pcs s = [Threads.Failed; Threads.Failed] ∧
   Threads.built s = [(0, Threads.Raised); (1, Threads.Raised)] ∧
   Threads.slot s = None).
Proof. vm_compute. repeat split. Qed.

(** * Further properties *)

(** ** Registration *)

(** X1.  Decorating a class, in any state and with any options, returns the
    class itself, makes [is_singleton] true for it, adds one closure with an
    empty slot and [_is_initialized = False], puts the wrapper of that
    closure in [__new__], replaces [__init__] exactly when reassignment is
    not allowed, and creates no object. *)
Theorem decorator_registers (k : config) (T : cid) (w : world) (cr : class_rec) :
  classes w !! T = Some cr →
  let d := length (cells w) in
  let res := decorator k (VClass T) w in
  res.1 = Ok (VClass T) ∧
  is_singleton res.2 (VClass T) = true ∧
  cells res.2 = (cells w ++ [closure_of k T w])%list ∧
  heap res.2 = heap w ∧
  class_new res.2 T = SingletonNew d ∧
  class_init res.2 T
    = (if allow_reassignment k then class_init w T else SingletonInit d).
Proof.
  intros Hc d res.
  destruct (decorator_class k T w cr Hc) as (Hdec & Hcells & Hheap & Hnew & Hinit & Hflag).
  fold res in Hdec, Hcells, Hheap, Hnew, Hinit, Hflag.
  split; [by rewrite Hdec|]. split; [|done].
  simpl. rewrite Hflag. by apply bool_decide_eq_true.
Qed.

Lemma decorator_registers_witness :
  is_singleton (decorator default_config (VClass 0) counter_world).2 (VClass 0) = true.
Proof.
  eapply (decorator_registers default_config 0 counter_world). reflexivity.
Defined.

Lemma mro_find_alter_notin {A} (attr : class_rec → option A) f T cs mro :
  T ∉ mro → mro_find (alter f T cs) attr mro = mro_find cs attr mro.
Proof.
  induction mro as [|c mro IH]; [done|]. intros [Hne Hnin]%not_elem_of_cons.
  simpl. by rewrite IH, list_lookup_alter_ne.
Qed.

Lemma decorator_classes k T w cr :
  classes w !! T = Some cr →
  ∃ f, classes (decorator k (VClass T) w).2 = alter f T (classes w).
Proof.
  intros Hc. unfold decorator. rewrite Hc.
  destruct (allow_reassignment k); cbn [snd negb]; unfold with_classes; simpl;
    unfold set_own_flag, set_own_new, set_own_init;
    rewrite !list_alter_alter_eq; eauto.
Qed.

(** X2.  Decorating a class changes nothing for a class that does not have
    it in its MRO: name, [__new__], [__init__], flag and [is_singleton] are
    as before; nor does it change any closure that existed. *)
Theorem decorator_frame (k : config) (T : cid) (w : world) (cr : class_rec) (c : cid) :
  classes w !! T = Some cr → T ∉ class_mro w c →
  let w' := (decorator k (VClass T) w).2 in
  class_name w' c = class_name w c ∧
  class_new w' c = class_new w c ∧
  class_init w' c = class_init w c ∧
  class_flag w' c = class_flag w c ∧
  is_singleton w' (VClass c) = is_singleton w (VClass c) ∧
  (∀ d cl, cells w !! d = Some cl → cells w' !! d = Some cl).
Proof.
  intros Hc Hnin w'.
  destruct (decorator_classes k T w cr Hc) as [f Hf]. fold w' in Hf.
  assert (T ≠ c) as Hne.
  { intros ->. apply Hnin. unfold class_mro. apply list_elem_of_here. }
  assert (classes w' !! c = classes w !! c) as Hlook.
  { by rewrite Hf, list_lookup_alter_ne. }
  assert (class_mro w' c = class_mro w c) as Hmro.
  { unfold class_mro. by rewrite Hlook. }
  assert (class_name w' c = class_name w c) as Hname.
  { unfold class_name. by rewrite Hlook. }
  assert (class_flag w' c = class_flag w c) as Hflag.
  { unfold class_flag. rewrite Hmro, Hf. by apply mro_find_alter_notin. }
  split; [done|]. split; [|split; [|split; [done|split]]].
  - unfold class_new. rewrite Hmro, Hf. by rewrite mro_find_alter_notin.
  - unfold class_init. rewrite Hmro, Hf. by rewrite mro_find_alter_notin.
  - simpl. by rewrite Hflag, Hname.
  - intros d cl Hd.
    destruct (decorator_class k T w cr Hc) as (_ & Hcells & _). fold w' in Hcells.
    rewrite Hcells. by apply lookup_app_l_Some.
Qed.

Lemma decorator_frame_witness :
  let w := (parent_and_child (config_of false true false) None empty_world).2 in
  is_singleton (decorator default_config (VClass 1) w).2 (VClass 0) = true.
Proof.
  intros w.
  destruct (decorator_frame default_config 1 w
    {| cname := "Child"; cbases := [0]; own_new := None; own_init := None;
       own_flag := None |} 0) as (_ & _ & _ & _ & H & _).
  - reflexivity.
  - vm_compute. intros H. by apply list_elem_of_In in H as [|[]].
  - rewrite H. reflexivity.
Defined.

(** ** One instance per class *)

Lemma reinit_many_owns calls : ∀ w fuel d T r m,
  owns w d T r m →
  let res := reinit_many fuel m r calls w in
  owns res.2 d T r m ∧ ∀ rs, res.1 = Ok rs → rs = replicate (length calls) r.
Proof.
  induction calls as [|[a kw] calls IH]; intros w fuel d T r m Hown; simpl.
  - split; [done|]. by intros rs [= <-].
  - unfold bind at 1 3.
    pose proof (call_init_frame fuel m r a kw w) as Hf.
    destruct (call_init fuel m r a kw w) as [[[]| |] w2]; cbn [snd] in Hf;
      try (split; [by eapply owns_init_frame | done]).
    assert (owns w2 d T r m) as Hown2 by by eapply owns_init_frame.
    destruct (IH w2 fuel d T r m Hown2) as [Ho Hr]. unfold bind, ret.
    destruct (reinit_many fuel m r calls w2) as [[rs| |] w3]; cbn [fst snd] in *;
      (split; [done|]); try done.
    intros ? [= <-]. by rewrite (Hr rs).
Qed.

(** X3.  Once the slot of a decorated class holds an instance of the class,
    any sequence of construction calls of that class, with any arguments,
    leaves that instance in the slot, and every call that returns returns
    it; this also holds when an [__init__] raises on the way. *)
Theorem one_instance (w : world) (d : did) (T : cid) (r : ref) (m : init_method)
    (calls : list (list value * kwargs)) :
  owns w d T r m →
  let res := construct_many T calls w in
  owns res.2 d T r m ∧ ∀ rs, res.1 = Ok rs → rs = replicate (length calls) r.
Proof.
  intros Hown. rewrite (construct_many_populated calls w d T r m Hown).
  by apply reinit_many_owns.
Qed.

Lemma one_instance_witness :
  (construct_many 0 [([VInt 2], []); ([], []); ([VInt 3], [])]
     (counter_first (config_of false false true)).2).1 = Raise
       (TypeError "__init__() takes exactly one argument: value") ∧
  ∃ cl, cells (construct_many 0 [([VInt 2], []); ([], []); ([VInt 3], [])]
          (counter_first (config_of false false true)).2).2 !! 0 = Some cl
        ∧ _instance cl = Some 0.
Proof.
  split; [reflexivity|].
  destruct (one_instance (counter_first (config_of false false true)).2 0 0 0 set_value
              [([VInt 2], []); ([], []); ([VInt 3], [])]) as [[(cl & Hcl & _ & Hr) _ _ _] _].
  - split; [|reflexivity..]. eexists. split; [reflexivity|]. split; reflexivity.
  - by exists cl.
Defined.

(** The two cases of [__new__] called for the decorated class itself when
    the original [__new__] is [object.__new__]. *)
Lemma new_original_cases call (w : world) (d : did) (cl : cell)
    (rest : list value) (kw : kwargs) :
  cells w !! d = Some cl → _original_new cl = ObjectNew →
  let res := __new__ call d (original_cls cl) rest kw w in
  match _instance cl with
  | Some r => res = (Ok r, w)
  | None =>
      res.1 = Ok (length (heap w)) ∧
      heap res.2 = (heap w ++ [{| obj_class := original_cls cl; obj_dict := ∅ |}])%list ∧
      (_instance <$> cells res.2 !! d) = Some (Some (length (heap w))) ∧
      classes res.2 = classes w
  end.
Proof.
  intros Hd Horig res. destruct (_instance cl) as [r|] eqn:Hr.
  - by apply new_original_populated.
  - assert (res = (Ok (length (heap w)), with_cells (alter (λ c,
       {| original_cls := original_cls c; cfg := cfg c;
          _instance := Some (length (heap w)); _is_initialized := _is_initialized c;
          _original_new := _original_new c; _original_init := _original_init c |}) d)
       (with_heap (λ h, (h ++ [{| obj_class := original_cls cl; obj_dict := ∅ |}])%list)
          w))) as ->.
    { unfold res. rewrite (new_original_empty _ _ _ cl) by done.
      unfold bind at 1. unfold _create_instance, bind at 1, get_cell at 1.
      rewrite Hd, Horig. cbn [new_is_object]. unfold object_new. cbn [excess_args andb].
      unfold bind at 1, set_instance at 1. unfold bind, get_cell.
      cbn [cells with_cells with_heap]. by rewrite list_lookup_alter_eq, Hd. }
    cbn [fst snd cells heap classes with_cells with_heap].
    by rewrite list_lookup_alter_eq, Hd.
Qed.



(** ** The gate of [__init__] *)

Lemma call_init_user fuel f r a kw : call_init fuel (UserInit f) r a kw = user_init f r a kw.
Proof. by destruct fuel. Qed.



(** ** Unrelated classes *)

Lemma touches_refl d r w : touches d r w w.
Proof. by repeat split. Qed.

Lemma touches_trans d r w1 w2 w3 : touches d r w1 w2 → touches d r w2 w3 → touches d r w1 w3.
Proof.
  intros (Hc & Hd & Hh & Hl) (Hc' & Hd' & Hh' & Hl'). repeat split.
  - congruence.
  - intros d' Hne. by rewrite Hd', Hd.
  - intros r' Hne Hlt. rewrite Hh' by (done || lia). by apply Hh.
  - lia.
Qed.

Lemma set_instance_touches d r r0 w : touches d r w (set_instance d r0 w).2.
Proof.
  repeat split; simpl; try done. intros d' Hne. by apply list_lookup_alter_ne.
Qed.

Lemma set_initialized_touches d r w : touches d r w (set_initialized d w).2.
Proof.
  repeat split; simpl; try done. intros d' Hne. by apply list_lookup_alter_ne.
Qed.

Lemma base_init_touches fuel b d r a kw w :
  base_init b = true → touches d r w (call_init fuel b r a kw w).2.
Proof.
  intros Hb. destruct b as [|f|]; [| |done].
  - replace (call_init fuel ObjectInit r a kw) with (object_init r a kw)
      by by destruct fuel.
    unfold object_init. repeat case_match; apply touches_refl.
  - rewrite call_init_user. unfold user_init.
    destruct (heap w !! r) as [o|]; [|apply touches_refl].
    destruct (f a kw (obj_dict o)) as [fl e].
    assert (touches d r w (with_heap
      (<[r := {| obj_class := obj_class o; obj_dict := fl |}]>) w)) as Ht.
    { repeat split; simpl; try done.
      - intros r' Hne _. by apply list_lookup_insert_ne.
      - by rewrite length_insert. }
    by destruct e.
Qed.

(** [__init__] of the class, run on [r]: the wrapper of closure [d] or the
    original [__init__] of that closure. *)
Lemma class_init_touches fuel m d cl r a kw w :
  cells w !! d = Some cl → base_init (_original_init cl) = true →
  m = SingletonInit d ∨ m = _original_init cl →
  touches d r w (call_init (S fuel) m r a kw w).2.
Proof.
  intros Hd Hb [->| ->]; [|by apply base_init_touches].
  rewrite call_init_singleton. unfold __init__, bind at 1, get_cell at 1. rewrite Hd.
  destruct (_is_initialized cl); cbn [negb]; [apply touches_refl|].
  unfold bind.
  pose proof (base_init_touches fuel (_original_init cl) d r a kw w Hb) as Ht.
  destruct (call_init fuel (_original_init cl) r a kw w) as [[[]| |] w1];
    cbn [snd] in *; try done.
  eapply touches_trans; [exact Ht|]. apply set_initialized_touches.
Qed.

(** [__new__] with an empty slot and [object.__new__] behind it. *)
Lemma new_empty_object call w d cl rest kw :
  cells w !! d = Some cl → _original_new cl = ObjectNew → _instance cl = None →
  __new__ call d (original_cls cl) rest kw w =
    (Ok (length (heap w)),
     (set_instance d (length (heap w))
        (with_heap (λ h, (h ++ [{| obj_class := original_cls cl; obj_dict := ∅ |}])%list)
           w)).2).
Proof.
  intros Hd Horig Hr. rewrite (new_original_empty _ _ _ cl) by done.
  unfold bind at 1. unfold _create_instance, bind at 1, get_cell at 1.
  rewrite Hd, Horig. cbn [new_is_object]. unfold object_new. cbn [excess_args andb].
  unfold bind at 1, set_instance at 1. unfold bind, get_cell.
  cbn [cells with_cells with_heap snd]. by rewrite list_lookup_alter_eq, Hd.
Qed.

(** X6.  A class whose original [__new__] is [object.__new__] and whose
    original [__init__] is not a wrapper, and whose slot is empty or holds
    an object whose type is the class itself: a construction call of it
    changes no class, no closure but its own, and no object that existed,
    except the instance of its own slot.  (A slot that holds an instance of
    a subclass, left there by a construction call of that subclass, is
    excluded: [__init__] of the subclass would run.) *)
Theorem construct_touches_own (w : world) (d : did) (cl : cell) (a : list value)
    (kw : kwargs) :
  cells w !! d = Some cl →
  class_new w (original_cls cl) = SingletonNew d →
  _original_new cl = ObjectNew →
  base_init (_original_init cl) = true →
  class_init w (original_cls cl) = SingletonInit d ∨
    class_init w (original_cls cl) = _original_init cl →
  (∀ r o, _instance cl = Some r → heap w !! r = Some o → obj_class o = original_cls cl) →
  let res := construct (original_cls cl) a kw w in
  classes res.2 = classes w ∧
  (∀ d', d' ≠ d → cells res.2 !! d' = cells w !! d') ∧
  (∀ r', r' < length (heap w) → _instance cl ≠ Some r' → heap res.2 !! r' = heap w !! r').
Proof.
  intros Hd Hcn Horig Hb Hinit Hinst res. set (T := original_cls cl) in *.
  assert (∃ r, (∀ r', r' < length (heap w) → _instance cl ≠ Some r' → r' ≠ r) ∧
               touches d r w res.2) as (r & Hr & Ht).
  { unfold res, construct. unfold bind at 1. rewrite Hcn, call_new_singleton.
    pose proof (new_original_cases (call_new (length (cells w))) w d cl a kw Hd Horig)
      as Hnew. fold T in Hnew. cbn zeta in Hnew.
    destruct (_instance cl) as [r|] eqn:Hsl.
    - rewrite Hnew. exists r. split; [by intros r' _ Hne ->|].
      destruct (heap w !! r) as [o|] eqn:Ho; [|apply touches_refl].
      rewrite (Hinst r o eq_refl Ho). unfold isinstance.
      rewrite (Hinst r o eq_refl Ho), issubclass_refl. unfold bind.
      pose proof (class_init_touches (length (cells w)) (class_init w T) d cl r a kw w
                    Hd Hb Hinit) as Hi.
      by destruct (call_init _ _ r a kw w) as [[[]| |] w1].
    - exists (length (heap w)). split; [intros r' Hlt _; lia|].
      rewrite (new_empty_object _ w d cl a kw Hd Horig Hsl). fold T.
      set (o := {| obj_class := T; obj_dict := ∅ |}).
      set (w3 := (set_instance d (length (heap w)) (with_heap (λ h, (h ++ [o])%list) w)).2).
      assert (touches d (length (heap w)) w w3) as Ht3.
      { repeat split; simpl; [| |rewrite length_app; lia].
        - intros d' Hne. by apply list_lookup_alter_ne.
        - intros r' _ Hlt. by apply lookup_app_l. }
      assert (heap w3 !! length (heap w) = Some o) as Ho by by apply list_lookup_middle.
      rewrite Ho. unfold isinstance. cbn [obj_class o]. rewrite issubclass_refl.
      assert (class_init w3 T = class_init w T) as -> by reflexivity.
      assert (∃ c3, cells w3 !! d = Some c3 ∧ _original_init c3 = _original_init cl)
        as (c3 & Hd3 & Hoi3).
      { eexists. split; [simpl; by rewrite list_lookup_alter_eq, Hd|done]. }
      unfold bind.
      pose proof (class_init_touches (length (cells w)) (class_init w T) d c3
        (length (heap w)) a kw w3 Hd3) as Hi. rewrite Hoi3 in Hi.
      specialize (Hi Hb Hinit).
      destruct (call_init _ _ _ a kw w3) as [[[]| |] w1];
        cbn [snd] in *; by eapply touches_trans. }
  destruct Ht as (Hc & Hcells & Hheap & _).
  split; [done|]. split; [done|]. intros r' Hlt Hne. apply Hheap; [|done]. by apply Hr.
Qed.

Lemma construct_touches_own_witness :
  let w := (two_singletons empty_world).2 in
  cells (construct 0 [] [] w).2 !! 1 = cells w !! 1 ∧
  heap (construct 0 [] [] w).2 !! 0 = heap w !! 0.
Proof.
  intros w.
  destruct (construct_touches_own w 0
    {| original_cls := 0; cfg := default_config; _instance := None;
       _is_initialized := false; _original_new := ObjectNew;
       _original_init := ObjectInit |} [] []) as (_ & Hc & Hh);
    [reflexivity | reflexivity | reflexivity | reflexivity | by left | done |].
  split; [by apply Hc | apply Hh; [vm_compute; lia | done]].
Defined.

(** ** A decorated child and the [__init__] gate of its parent *)



(** ** Subclasses declared after the decoration *)

Lemma mro_find_app {A} (attr : class_rec → option A) cs ext mro :
  Forall (λ c, c < length cs) mro →
  mro_find (cs ++ ext) attr mro = mro_find cs attr mro.
Proof.
  induction 1 as [|c mro Hc _ IH]; [done|]. simpl. by rewrite IH, lookup_app_l.
Qed.

Lemma mro_find_inherit {A} (attr : class_rec → option A) w c new :
  classes w !! c = Some new → attr new = None →
  mro_find (classes w) attr (class_mro w c) = mro_find (classes w) attr (cbases new).
Proof. intros H Ha. unfold class_mro. rewrite H. simpl. rewrite H. simpl. by rewrite Ha. Qed.

(** X8.  A class declared as a subclass of [T] and not decorated finds the
    flag and the [__new__] of [T], and the [__init__] of [T] unless its body
    has one: it is a subclass of [T] for which [is_singleton] is true
    exactly when its own name is the flag of [T]. *)
Theorem subclass_inherits (name : string) (T : cid) (init : option init_method)
    (w : world) (cr : class_rec) :
  classes w !! T = Some cr →
  Forall (λ c, c < length (classes w)) (cbases cr) →
  let c := length (classes w) in
  let res := class_create name (Some T) init w in
  res.1 = Ok c ∧
  issubclass res.2 c T = true ∧
  class_flag res.2 c = class_flag w T ∧
  class_new res.2 c = class_new w T ∧
  class_init res.2 c = default (class_init w T) init ∧
  is_singleton res.2 (VClass c) = bool_decide (class_flag w T = Some name).
Proof.
  intros Hc Hb c res.
  assert (Forall (λ x, x < length (classes w)) (class_mro w T)) as Hmro.
  { unfold class_mro. rewrite Hc. constructor; [by eapply lookup_lt_Some|done]. }
  set (new := {| cname := name; cbases := class_mro w T; own_new := None;
                 own_init := init; own_flag := None |}).
  assert (res = (Ok c, with_classes (λ cs, (cs ++ [new])%list) w)) as ->.
  { unfold res, class_create. by rewrite Hc. }
  cbn [fst snd].
  assert (classes (with_classes (λ cs, (cs ++ [new])%list) w) !! c = Some new) as Hnew.
  { by apply list_lookup_middle. }
  set (w' := with_classes (λ cs, (cs ++ [new])%list) w) in *.
  assert (∀ {A} (attr : class_rec → option A), attr new = None →
    mro_find (classes w') attr (class_mro w' c) = mro_find (classes w) attr (class_mro w T))
    as Hinh.
  { intros A attr Ha. rewrite (mro_find_inherit attr w' c new) by done.
    change (cbases new) with (class_mro w T).
    change (classes w') with (classes w ++ [new])%list. by apply mro_find_app. }
  assert (class_flag w' c = class_flag w T) as Hflag by by apply Hinh.
  split; [done|]. split; [|split; [done|split; [|split]]].
  - apply bool_decide_eq_true. unfold class_mro at 1. rewrite Hnew.
    apply list_elem_of_further. change (cbases new) with (class_mro w T).
    unfold class_mro. apply list_elem_of_here.
  - unfold class_new. by rewrite Hinh.
  - destruct init as [m|] eqn:Hi.
    + by apply (class_init_own w' c new).
    + unfold class_init. by rewrite Hinh.
  - cbn [is_singleton]. rewrite Hflag. unfold class_name. rewrite Hnew.
    change (default "" (cname <$> Some new)) with name.
    destruct (class_flag w T) as [s|]; [|by rewrite bool_decide_eq_false_2].
    apply bool_decide_ext. split; congruence.
Qed.

Lemma subclass_inherits_witness :
  let w := ((p <- class_create "Singleton" None None ;;
             decorator (config_of false true false) (VClass p)) empty_world).2 in
  class_flag (class_create "NonSingletonSubclass" (Some 0) None w).2 1 = Some "Singleton" ∧
  is_singleton (class_create "NonSingletonSubclass" (Some 0) None w).2 (VClass 1) = false.
Proof.
  intros w.
  destruct (subclass_inherits "NonSingletonSubclass" 0 None w
    {| cname := "Singleton"; cbases := []; own_new := Some (SingletonNew 0);
       own_init := Some (SingletonInit 0); own_flag := Some "Singleton" |})
    as (_ & _ & Hf & _ & _ & Hs); [reflexivity | constructor |].
  split; [exact Hf | exact Hs].
Defined.

(** ** More on the lock *)

(** X9.  In every execution of the threads, whether the runs of the
    construction logic return or raise, at every moment: at most one thread
    is inside the [with] block; the lock is held exactly when some thread is
    inside; once every call is over, returned or raised, the lock is free;
    and a thread whose run of the construction logic has raised leaves the
    block in its next step, releasing the lock with [_instance] still
    [None]. *)
Theorem mutual_exclusion (raises : nat → bool) (n : nat) (sched : list nat) :
  let s := Threads.run raises sched (Threads.init n) in
  (∀ t1 t2 p1 p2, Threads.pcs s !! t1 = Some p1 → Threads.pcs s !! t2 = Some p2 →
     Threads.crit p1 = true → Threads.crit p2 = true → t1 = t2) ∧
  (Threads.lock s = true ↔
     ∃ t p, Threads.pcs s !! t = Some p ∧ Threads.crit p = true) ∧
  ((∀ t p, Threads.pcs s !! t = Some p → Threads.over p = true) →
     Threads.lock s = false) ∧
  (∀ t, Threads.pcs s !! t = Some Threads.Unwind →
     let s' := Threads.run raises [t] s in
     Threads.lock s' = false ∧ Threads.slot s' = None ∧
     Threads.pcs s' = <[t := Threads.Failed]> (Threads.pcs s)).
Proof.
  intros s. assert (Threads.inv raises s) as Hinv by apply inv_run, inv_init.
  assert (Threads.lock s = true ↔
     ∃ t p, Threads.pcs s !! t = Some p ∧ Threads.crit p = true) as Hlock.
  { split; [apply (Threads.inv_holder raises s Hinv)|].
    intros (t & p & Ht & Hc). eapply ok_crit_lock; [done|].
    by apply (Threads.inv_ok raises s Hinv). }
  split; [apply (Threads.inv_mutex raises s Hinv)|]. split; [done|]. split.
  - intros Hall. destruct (Threads.lock s) eqn:Hl; [|done].
    destruct (proj1 Hlock eq_refl) as (t & p & Ht & Hc).
    specialize (Hall t p Ht). by destruct p.
  - intros t Ht s'.
    destruct (Threads.inv_ok raises s Hinv t _ Ht) as (_ & [Hsl _] & _).
    unfold s'. cbn [Threads.run]. unfold Threads.step_thread. rewrite Ht.
    unfold default. cbn [from_option id]. done.
Qed.

Lemma mutual_exclusion_witness :
  let s := Threads.run (λ _, true) [0; 1; 0; 0; 0; 0] (Threads.init 2) in
  Threads.lock s = true ∧ Threads.lock (Threads.run (λ _, true) [0] s) = false.
Proof.
  intros s.
  destruct (mutual_exclusion (λ _, true) 2 [0; 1; 0; 0; 0; 0]) as (_ & H & _ & Hu).
  split.
  - apply H. exists 0, Threads.Unwind. split; reflexivity.
  - by destruct (Hu 0 eq_refl) as (Hl & _).
Defined.

Lemma slot_stable_step raises t s s' r :
  Threads.inv raises s → Threads.slot s = Some r →
  Threads.step_thread raises t s = Some s' → Threads.slot s' = Some r.
Proof.
  intros Hinv Hr Hs. unfold Threads.step_thread in Hs.
  destruct (Threads.pcs s !! t) as [p|] eqn:Ht; [|done].
  pose proof (Threads.inv_ok raises s Hinv t p Ht) as Hp.
  destruct p as [| | | |r0|r0| | |v| |]; simpl in Hp;
    try destruct (Threads.lock s); try destruct (raises r0);
    try (injection Hs as <-); try done.
  all: destruct Hp as (_ & [? _] & _); congruence.
Qed.

Lemma slot_stable_run raises more : ∀ s r,
  Threads.inv raises s → Threads.slot s = Some r →
  Threads.slot (Threads.run raises more s) = Some r.
Proof.
  induction more as [|t more IH]; intros s r Hinv Hr; [done|]. simpl.
  destruct (Threads.step_thread raises t s) as [s'|] eqn:Hs; simpl; [|by apply IH].
  apply IH; [by eapply inv_step | by eapply slot_stable_step].
Qed.

Lemma fast_path raises s t r :
  Threads.slot s = Some r → Threads.pcs s !! t = Some Threads.Check1 →
  Threads.run raises [t; t] s = Threads.goto t (Threads.Done (Some r)) s.
Proof.
  intros Hr Ht. pose proof (lookup_lt_Some _ _ _ Ht) as Hlt.
  assert (Threads.step_thread raises t s = Some (Threads.goto t Threads.Return s)) as H1.
  { unfold Threads.step_thread. by rewrite Ht, Hr. }
  assert (Threads.step_thread raises t (Threads.goto t Threads.Return s)
          = Some (Threads.goto t (Threads.Done (Some r)) s)) as H2.
  { unfold Threads.step_thread, Threads.goto. cbn [Threads.pcs Threads.slot].
    rewrite list_lookup_insert_eq by done. by rewrite list_insert_insert_eq, Hr. }
  cbn [Threads.run]. rewrite H1. unfold default at 2. cbn [from_option id].
  by rewrite H2.
Qed.

(** X10.  Once [_instance] is set in an execution it keeps its value in
    every continuation, whether later runs of the construction logic would
    return or raise, and a thread that starts its call then returns that
    instance in its next two steps without taking or waiting for the lock,
    whoever holds it, and without a run of the construction logic. *)
Theorem populated_fast_path (raises : nat → bool) (n : nat) (sched : list nat)
    (r : ref) :
  let s := Threads.run raises sched (Threads.init n) in
  Threads.slot s = Some r →
  (∀ more, Threads.slot (Threads.run raises (sched ++ more) (Threads.init n)) = Some r) ∧
  (∀ more t, let s1 := Threads.run raises (sched ++ more) (Threads.init n) in
     Threads.pcs s1 !! t = Some Threads.Check1 →
     let s2 := Threads.run raises [t; t] s1 in
     Threads.pcs s2 = <[t := Threads.Done (Some r)]> (Threads.pcs s1) ∧
     Threads.lock s2 = Threads.lock s1 ∧ Threads.built s2 = Threads.built s1).
Proof.
  intros s Hr. assert (Threads.inv raises s) as Hinv by apply inv_run, inv_init.
  assert (∀ more,
    Threads.slot (Threads.run raises (sched ++ more) (Threads.init n)) = Some r)
    as Hstable.
  { intros more. rewrite run_app. by apply slot_stable_run. }
  split; [done|]. intros more t s1 Ht s2.
  pose proof (Hstable more) as Hr1. fold s1 in Hr1.
  unfold s2. by rewrite (fast_path raises s1 t r).
Qed.

Lemma populated_fast_path_witness :
  let raises r := bool_decide (r = 0) in
  let s1 := Threads.run raises [0; 0; 0; 0; 0; 0; 1; 1; 1; 1; 1; 1] (Threads.init 3) in
  Threads.pcs (Threads.run raises [2; 2] s1)
    = <[2 := Threads.Done (Some 1)]> (Threads.pcs s1) ∧
  Threads.lock (Threads.run raises [2; 2] s1) = true.
Proof.
  intros raises s1.
  destruct (populated_fast_path raises 3 [0; 0; 0; 0; 0; 0; 1; 1; 1; 1; 1; 1] 1 eq_refl)
    as [_ H].
  destruct (H [] 2 eq_refl) as (H1 & _ & _). split; [exact H1 | reflexivity].
Defined.

(** ** Without the lock *)

Lemma insert_middle {A} (l1 l2 : list A) (x y : A) k :
  length l1 = k → <[k := x]> (l1 ++ y :: l2)%list = (l1 ++ x :: l2)%list.
Proof. intros <-. by rewrite insert_app_r_alt, Nat.sub_diag. Qed.

Lemma replicate_snoc_app {A} k (x : A) l :
  (replicate k x ++ x :: l)%list = (replicate (S k) x ++ l)%list.
Proof. induction k as [|k IH]; [done|]. simpl. by rewrite IH. Qed.

Lemma unlocked_run_app sched1 sched2 s :
  Unlocked.run (sched1 ++ sched2)%list s = Unlocked.run sched2 (Unlocked.run sched1 s).
Proof. revert s. induction sched1 as [|t sched1 IH]; intros s; [done|]. simpl. apply IH. Qed.

(** While [_instance] is [None], every thread that tests it goes on to
    create. *)
Lemma unlocked_all_check todo : ∀ done b,
  Unlocked.run (seq done todo)
    {| Unlocked.slot := None; Unlocked.built := b;
       Unlocked.pcs := (replicate done Unlocked.Create ++ replicate todo Unlocked.Check)%list |}
  = {| Unlocked.slot := None; Unlocked.built := b;
       Unlocked.pcs := replicate (done + todo) Unlocked.Create |}.
Proof.
  induction todo as [|todo IH]; intros done b.
  - simpl. by rewrite app_nil_r, Nat.add_0_r.
  - cbn [seq Unlocked.run replicate]. unfold Unlocked.step_thread.
    cbn [Unlocked.pcs Unlocked.slot].
    rewrite list_lookup_middle by by rewrite length_replicate.
    unfold default. cbn [from_option id]. unfold Unlocked.goto.
    cbn [Unlocked.pcs Unlocked.slot Unlocked.built].
    rewrite insert_middle by by rewrite length_replicate.
    rewrite replicate_snoc_app, IH. by rewrite Nat.add_succ_r.
Qed.

Lemma unlocked_run_step t rest s s' :
  Unlocked.step_thread t s = Some s' → Unlocked.run (t :: rest) s = Unlocked.run rest s'.
Proof. intros H. simpl. by rewrite H. Qed.

(** The steps of the thread at position [length l1]. *)
Lemma unlocked_step_at (l1 l2 : list Unlocked.pc) p t sl b :
  length l1 = t →
  Unlocked.step_thread t
    {| Unlocked.slot := sl; Unlocked.built := b; Unlocked.pcs := (l1 ++ p :: l2)%list |}
  = match p with
    | Unlocked.Check =>
        Some {| Unlocked.slot := sl; Unlocked.built := b;
                Unlocked.pcs := (l1 ++ (match sl with None => Unlocked.Create
                                        | Some _ => Unlocked.Return end) :: l2)%list |}
    | Unlocked.Create =>
        Some {| Unlocked.slot := sl; Unlocked.built := (b ++ [(t, false)])%list;
                Unlocked.pcs := (l1 ++ Unlocked.Finish (length b) :: l2)%list |}
    | Unlocked.Finish r =>
        Some {| Unlocked.slot := sl; Unlocked.built := <[r := (t, true)]> b;
                Unlocked.pcs := (l1 ++ Unlocked.Store r :: l2)%list |}
    | Unlocked.Store r =>
        Some {| Unlocked.slot := Some r; Unlocked.built := b;
                Unlocked.pcs := (l1 ++ Unlocked.Return :: l2)%list |}
    | Unlocked.Return =>
        Some {| Unlocked.slot := sl; Unlocked.built := b;
                Unlocked.pcs := (l1 ++ Unlocked.Done sl :: l2)%list |}
    | Unlocked.Done _ => None
    end.
Proof.
  intros Hl. unfold Unlocked.step_thread. cbn [Unlocked.pcs].
  rewrite list_lookup_middle by done.
  destruct p; try done; unfold Unlocked.goto; cbn [Unlocked.pcs Unlocked.slot Unlocked.built];
    by rewrite insert_middle.
Qed.

(** A thread that has passed the test runs its four steps on its own. *)
Lemma unlocked_each_creates todo : ∀ done sl,
  let returned k := Unlocked.Done ∘ Some <$> seq 0 k in
  let objects k := (λ t, (t, true)) <$> seq 0 k in
  ∃ sl',
  Unlocked.run (flat_map (λ t, [t; t; t; t]) (seq done todo))
    {| Unlocked.slot := sl; Unlocked.built := objects done;
       Unlocked.pcs := (returned done ++ replicate todo Unlocked.Create)%list |}
  = {| Unlocked.slot := sl'; Unlocked.built := objects (done + todo);
       Unlocked.pcs := returned (done + todo) |}.
Proof.
  induction todo as [|todo IH]; intros done sl returned objects.
  - exists sl. simpl. by rewrite app_nil_r, Nat.add_0_r.
  - assert (length (returned done) = done) as Hlr.
    { unfold returned. by rewrite length_fmap, length_seq. }
    assert (length (objects done) = done) as Hlo.
    { unfold objects. by rewrite length_fmap, length_seq. }
    destruct (IH (S done) (Some done)) as [sl' IH']. exists sl'.
    cbn [seq flat_map replicate app].
    rewrite (unlocked_run_step done _ _ _ (unlocked_step_at _ _ Unlocked.Create _ _ _ Hlr)).
    rewrite (unlocked_run_step done _ _ _
               (unlocked_step_at _ _ (Unlocked.Finish _) _ _ _ Hlr)).
    rewrite (unlocked_run_step done _ _ _
               (unlocked_step_at _ _ (Unlocked.Store _) _ _ _ Hlr)).
    rewrite (unlocked_run_step done _ _ _ (unlocked_step_at _ _ Unlocked.Return _ _ _ Hlr)).
    rewrite Hlo, insert_app_r_alt, Hlo, Nat.sub_diag by lia. cbn [insert list_insert].
    assert ((objects done ++ [(done, true)])%list = objects (S done)) as ->.
    { unfold objects. by rewrite seq_S, fmap_app. }
    assert ((returned done ++ Unlocked.Done (Some done) :: replicate todo Unlocked.Create)%list
            = (returned (S done) ++ replicate todo Unlocked.Create)%list) as ->.
    { unfold returned. by rewrite seq_S, fmap_app, <-app_assoc. }
    unfold returned, objects. unfold returned, objects in IH'. rewrite IH'.
    by rewrite Nat.add_succ_r.
Qed.

(** X11.  With [thread_safe=False] the first calls of [n] threads can make
    [n] objects: in the execution where every thread tests [_instance]
    before any thread assigns it, every thread runs the original
    construction logic and every caller returns an instance of its own. *)
Theorem unlocked_duplicates (n : nat) :
  let s := Unlocked.run (Unlocked.racy_schedule n) (Unlocked.init n) in
  Unlocked.pcs s = Unlocked.Done ∘ Some <$> seq 0 n ∧
  Unlocked.built s = (λ t, (t, true)) <$> seq 0 n.
Proof.
  intros s. unfold s, Unlocked.racy_schedule, Unlocked.init.
  rewrite unlocked_run_app.
  pose proof (unlocked_all_check n 0 []) as H1. cbn [replicate app plus] in H1.
  rewrite H1.
  destruct (unlocked_each_creates n 0 None) as [sl' H2]. cbn [seq fmap list_fmap app plus] in H2.
  by rewrite H2.
Qed.

(** ** Construction calls always come back *)

Lemma safe_ret {A} (I : world → Prop) (Q : A → world → Prop) a w :
  I w → Q a w → safe I Q (ret a) w.
Proof. by split. Qed.

Lemma safe_bind {A B} (I : world → Prop) (Q : A → world → Prop)
    (Q' : B → world → Prop) (m : M A) (k : A → M B) w :
  safe I Q m w → (∀ a w', I w' → Q a w' → safe I Q' (k a) w') →
  safe I Q' (bind m k) w.
Proof.
  unfold safe at 1 3, bind. intros Hm Hk.
  destruct (m w) as [[a| |] w1]; [|done..]. destruct Hm. by apply Hk.
Qed.

Lemma safe_weaken {A} (I : world → Prop) (Q Q' : A → world → Prop) m w :
  safe I Q m w → (∀ a w', I w' → Q a w' → Q' a w') → safe I Q' m w.
Proof.
  unfold safe. intros Hm HQ. destruct (m w) as [[a| |] w1]; [|done..].
  destruct Hm. split; [done|]. by apply HQ.
Qed.

Lemma mro_find_Some {A} (attr : class_rec → option A) cs mro a :
  mro_find cs attr mro = Some a → ∃ c cr, cs !! c = Some cr ∧ attr cr = Some a.
Proof.
  induction mro as [|c mro IH]; [done|]. simpl.
  destruct (cs !! c) as [cr|] eqn:Hc; simpl; [|done].
  destruct (attr cr) as [a'|] eqn:Ha; [|done]. intros [= ->]. eauto.
Qed.

Lemma class_new_bound w c d :
  wf w → class_new w c = SingletonNew d → d < length (cells w).
Proof.
  intros [_ Hcl]. unfold class_new.
  destruct (mro_find _ own_new _) as [m|] eqn:Hm; [|done]. simpl. intros ->.
  destruct (mro_find_Some _ _ _ _ Hm) as (c' & cr & Hc' & Ho).
  destruct (Hcl c' cr Hc') as [H _]. by apply H.
Qed.

Lemma class_init_bound w c d :
  wf w → class_init w c = SingletonInit d → d < length (cells w).
Proof.
  intros [_ Hcl]. unfold class_init.
  destruct (mro_find _ own_init _) as [m|] eqn:Hm; [|done]. simpl. intros ->.
  destruct (mro_find_Some _ _ _ _ Hm) as (c' & cr & Hc' & Ho).
  destruct (Hcl c' cr Hc') as [_ H]. by apply H.
Qed.

Section Safety.
Variable n : nat.

Lemma safe_get_cell d w :
  wfn n w → d < n →
  safe (wfn n) (λ c w', w' = w ∧ cells w !! d = Some c) (get_cell d) w.
Proof.
  intros Hw Hd. unfold safe, get_cell.
  destruct (cells w !! d) as [c|] eqn:Hc; [done|].
  apply lookup_ge_None in Hc. destruct Hw as [_ Hn]. lia.
Qed.

Lemma wfn_set_instance d r w :
  wfn n w → r < length (heap w) → wfn n (set_instance d r w).2.
Proof.
  intros [[Hce Hcl] Hn] Hr. split; [split|]; simpl.
  - intros d' cl' Hd'. destruct (decide (d = d')) as [<-|Hne].
    + rewrite list_lookup_alter_eq in Hd'.
      destruct (cells w !! d) as [cl|] eqn:Hd; simplify_eq/=.
      destruct (Hce d cl Hd) as (H1 & H2 & H3). repeat split; try done.
      by intros ? [= <-].
    + rewrite list_lookup_alter_ne in Hd' by done. by apply (Hce d' cl').
  - intros c cr Hc. rewrite length_alter. by apply (Hcl c cr).
  - by rewrite length_alter.
Qed.

Lemma wfn_set_initialized d w : wfn n w → wfn n (set_initialized d w).2.
Proof.
  intros [[Hce Hcl] Hn]. split; [split|]; simpl.
  - intros d' cl' Hd'. destruct (decide (d = d')) as [<-|Hne].
    + rewrite list_lookup_alter_eq in Hd'.
      destruct (cells w !! d) as [cl|] eqn:Hd; simplify_eq/=. by apply (Hce d cl).
    + rewrite list_lookup_alter_ne in Hd' by done. by apply (Hce d' cl').
  - intros c cr Hc. rewrite length_alter. by apply (Hcl c cr).
  - by rewrite length_alter.
Qed.

Lemma wfn_heap_grow w (f : list object → list object) :
  wfn n w → (length (heap w) ≤ length (f (heap w)))%nat → wfn n (with_heap f w).
Proof.
  intros [[Hce Hcl] Hn] Hle. split; [split|]; simpl; [|done..].
  intros d cl Hd. destruct (Hce d cl Hd) as (H1 & H2 & H3). repeat split; try done.
  intros r Hr. specialize (H3 r Hr). lia.
Qed.

Lemma safe_object_new cls a kw w :
  wfn n w → safe (wfn n) (λ r w', r < length (heap w')) (object_new cls a kw) w.
Proof.
  intros Hw. unfold safe, object_new. repeat case_match; simplify_eq; try done.
  split.
  - apply wfn_heap_grow; [done|]. rewrite length_app. lia.
  - simpl. rewrite length_app. simpl. lia.
Qed.

Lemma safe_check_subclass d cls w :
  wfn n w → d < n → safe (wfn n) (λ _ w', w' = w) (_check_subclass d cls) w.
Proof.
  intros Hw Hd. unfold _check_subclass.
  eapply safe_bind; [by apply safe_get_cell|].
  intros c w' Hw' [-> Hc]. unfold safe. by repeat case_match; simplify_eq.
Qed.

(** Storing what [_create_instance] returned, then reading the slot. *)
Lemma safe_store_and_read d r w :
  wfn n w → d < n → r < length (heap w) →
  safe (wfn n) (λ r' w', r' < length (heap w'))
    (set_instance d r ;;; c <- get_cell d ;;
     match _instance c with Some r => ret r | None => stuck end) w.
Proof.
  intros Hw Hd Hr. unfold bind at 1.
  change (set_instance d r w) with (Ok tt, (set_instance d r w).2). cbv iota beta.
  pose proof (wfn_set_instance d r w Hw Hr) as Hw'.
  unfold safe, bind, get_cell. simpl.
  rewrite list_lookup_alter_eq.
  destruct (cells w !! d) as [c|] eqn:Hc; simpl; [done|].
  apply lookup_ge_None in Hc. destruct Hw as [_ Hn]. lia.
Qed.

Lemma safe_new fuel : ∀ d cls args kw w,
  wfn n w → d < n → d < fuel →
  safe (wfn n) (λ r w', r < length (heap w'))
    (call_new fuel (SingletonNew d) cls args kw) w.
Proof.
  induction fuel as [|fuel IH]; intros d cls args kw w Hw Hd Hf; [lia|].
  rewrite call_new_singleton.
  assert (∀ w1 a, wfn n w1 →
    safe (wfn n) (λ r w', r < length (heap w'))
      (_create_instance (call_new fuel) d cls a kw) w1) as Hcreate.
  { intros w1 a Hw1. unfold _create_instance.
    eapply safe_bind; [by apply safe_get_cell|].
    intros c w' Hw' [-> Hc]. destruct (_original_new c) as [|d'] eqn:Ho; simpl.
    - by apply safe_object_new.
    - destruct Hw1 as [[Hce Hcl] Hn].
      destruct (Hce d c Hc) as (H1 & _). specialize (H1 d' Ho).
      apply IH; [done | lia | lia]. }
  assert (∀ w1, wfn n w1 →
    safe (wfn n) (λ r w', True)
      (r <- _create_instance (call_new fuel) d cls (VClass cls :: args) kw ;;
       set_instance d r) w1) as Hstore.
  { intros w1 Hw1. eapply safe_bind; [by apply Hcreate|].
    intros r w' Hw' Hr. unfold safe. simpl. split; [|done].
    by apply (wfn_set_instance d r w'). }
  unfold __new__. eapply safe_bind; [by apply safe_get_cell|].
  intros c w' Hw' [-> Hc]. case_match.
  - eapply safe_bind; [by apply safe_check_subclass|]. intros _ w' Hw'' ->.
    eapply safe_bind; [by apply Hcreate|]. intros r w' Hw3 Hr.
    unfold bind. change (set_instance d r w') with (Ok tt, (set_instance d r w').2).
    cbv iota beta. unfold safe, ret. split; [by apply wfn_set_instance|done].
  - destruct (_instance c) as [r0|] eqn:Hsl.
    + unfold bind at 1, ret at 1. unfold safe, bind, get_cell. rewrite Hc, Hsl.
      split; [done|]. destruct Hw as [[Hce _] _].
      by apply (Hce d c Hc).
    + assert (safe (wfn n) (λ r w', r < length (heap w'))
        (r <- _create_instance (call_new fuel) d cls (VClass cls :: args) kw ;;
         set_instance d r ;;;
         c'' <- get_cell d ;;
         match _instance c'' with Some r => ret r | None => stuck end) w) as Hmain.
      { eapply safe_bind; [by apply Hcreate|]. intros r w' Hw3 Hr.
        by apply safe_store_and_read. }
      destruct (thread_safe (cfg c)); unfold safe in *; unfold bind, get_cell in *;
        rewrite ?Hc, ?Hsl; by destruct (_create_instance _ _ _ _ _ w) as [[r| |] w1].
Qed.

Lemma safe_init fuel : ∀ m self a kw w,
  wfn n w → self < length (heap w) →
  (∀ d, m = SingletonInit d → d < n ∧ d < fuel) →
  safe (wfn n) (λ _ w', length (heap w') = length (heap w))
    (call_init fuel m self a kw) w.
Proof.
  induction fuel as [|fuel IH]; intros m self a kw w Hw Hself Hm.
  all: destruct m as [|f|d].
  all: try (replace (call_init _ ObjectInit self a kw) with (object_init self a kw)
              by reflexivity;
            unfold safe, object_init;
            destruct (heap w !! self) as [o|] eqn:Ho;
              [by repeat case_match; simplify_eq
              |apply lookup_ge_None in Ho; lia]).
  all: try (rewrite call_init_user; unfold safe, user_init;
            destruct (heap w !! self) as [o|] eqn:Ho;
              [|apply lookup_ge_None in Ho; lia];
            destruct (f a kw (obj_dict o)) as [fl [e|]];
              (try split); try (apply wfn_heap_grow; [done|]);
              simpl; rewrite ?length_insert; done).
  - destruct (Hm d eq_refl). lia.
  - destruct (Hm d eq_refl) as [Hdn Hdf].
    rewrite call_init_singleton. unfold __init__.
    eapply safe_bind; [by apply safe_get_cell|].
    intros c w' Hw' [-> Hc]. destruct (_is_initialized c); cbn [negb]; [by apply safe_ret|].
    eapply safe_bind.
    + apply IH; [done..|]. intros d' Hd'.
      destruct Hw as [[Hce _] _]. destruct (Hce d c Hc) as (_ & H2 & _).
      specialize (H2 d' Hd'). lia.
    + intros u w' Hw2 Hlen. unfold safe. simpl. split; [|done].
      by apply wfn_set_initialized.
Qed.
End Safety.

Lemma construct_safe w T a kw :
  wf w →
  safe (wfn (length (cells w))) (λ r w', r < length (heap w')) (construct T a kw) w.
Proof.
  intros Hw. set (n := length (cells w)).
  assert (wfn n w) as Hwn by done.
  unfold construct. fold n.
  eapply safe_bind.
  - instantiate (1 := λ r w', r < length (heap w')).
    destruct (class_new w T) as [|d] eqn:Hn.
    + replace (call_new (S n) ObjectNew T a kw) with (object_new T a kw) by reflexivity.
      by apply safe_object_new.
    + pose proof (class_new_bound w T d Hw Hn). apply safe_new; [done | done | lia].
  - intros r w1 Hw1 Hr. cbv beta in Hr. unfold safe.
    destruct (heap w1 !! r) as [o|] eqn:Ho; [|apply lookup_ge_None in Ho; lia].
    destruct (isinstance w1 o T); [|done].
    assert (safe (wfn n) (λ r' w', r' < length (heap w'))
      (call_init (S n) (class_init w1 (obj_class o)) r a kw ;;; ret r) w1) as Hs; [|done].
    eapply safe_bind.
    + apply safe_init; [done..|]. intros d Hd. destruct Hw1 as [Hwf Hlen].
      pose proof (class_init_bound w1 (obj_class o) d Hwf Hd). lia.
    + intros u w2 Hw2 Hlen. apply safe_ret; [done|]. simpl in Hlen. lia.
Qed.

Lemma wf_empty : wf empty_world.
Proof. split; intros ? ? H; simpl in H; by rewrite lookup_nil in H. Qed.

Lemma wf_class_create name base init w :
  wf w → from_option (λ m, base_init m = true) True init →
  wf (class_create name base init w).2.
Proof.
  intros Hw Hinit.
  assert (∀ bases, wf (with_classes (λ cs,
    (cs ++ [{| cname := name; cbases := bases; own_new := None;
               own_init := init; own_flag := None |}])%list) w)) as Hnew.
  { intros bases. destruct Hw as [Hce Hcl]. split; simpl; [done|].
    intros c cr [[_ Hc]|[_ <-]]%lookup_snoc_Some; [by apply (Hcl c cr)|].
    simpl. split; [done|]. intros d ->. done. }
  unfold class_create. destruct base as [b|]; [|apply Hnew].
  destruct (classes w !! b); [apply Hnew|done].
Qed.

Lemma wf_decorator k v w : wf w → wf (decorator k v w).2.
Proof.
  intros Hw. destruct v as [| | | |T|]; try done.
  destruct (classes w !! T) as [cr|] eqn:Hc; [|by unfold decorator; rewrite Hc].
  destruct (decorator_class k T w cr Hc) as (_ & Hcells & Hheap & _).
  destruct (decorator_classes k T w cr Hc) as [f Hf].
  set (w' := (decorator k (VClass T) w).2) in *.
  assert (classes w' !! T = Some
    {| cname := cname cr; cbases := cbases cr;
       own_new := Some (SingletonNew (length (cells w)));
       own_init := if allow_reassignment k then own_init cr
                   else Some (SingletonInit (length (cells w)));
       own_flag := Some (cname cr) |}) as HT.
  { unfold w', decorator. rewrite Hc.
    destruct (allow_reassignment k); cbn [snd negb]; unfold class_name; simpl;
      unfold set_own_flag, set_own_new, set_own_init;
      rewrite !list_lookup_alter_eq, Hc; reflexivity. }
  pose proof Hw as [Hce Hcl]. split.
  - intros d cl. rewrite Hcells, Hheap.
    intros [[_ Hd]|[-> <-]]%lookup_snoc_Some; [by apply Hce|].
    cbn [closure_of _original_new _original_init _instance]. repeat split; [| |done].
    + intros d'. apply class_new_bound; done.
    + intros d'. apply class_init_bound; done.
  - intros c cr' Hc'. rewrite Hcells, length_app. simpl.
    destruct (decide (c = T)) as [->|Hne].
    + rewrite HT in Hc'. injection Hc' as <-. simpl. split.
      * intros d [= <-]. lia.
      * destruct (Hcl T cr Hc) as [_ H2].
        destruct (allow_reassignment k); intros d Hd; [specialize (H2 d Hd); lia|].
        injection Hd as <-. lia.
    + rewrite Hf, list_lookup_alter_ne in Hc' by done.
      destruct (Hcl c cr' Hc') as [H1 H2].
      split; intros d Hd; [specialize (H1 d Hd)|specialize (H2 d Hd)]; lia.
Qed.

Lemma wf_construct T a kw w : wf w → wf (construct T a kw w).2.
Proof.
  intros Hw. pose proof (construct_safe w T a kw Hw) as Hs. unfold safe in Hs.
  destruct (construct T a kw w) as [[r| |] w1]; simpl; [by destruct Hs as [[? _] _]| |done].
  by destruct Hs.
Qed.

Lemma reachable_wf w : reachable w → wf w.
Proof.
  induction 1; auto using wf_empty, wf_class_create, wf_decorator, wf_construct.
Qed.

(** X12.  In every state made from the empty one by class statements,
    decorations and construction calls, a construction call of any class
    with any arguments comes back: it returns an object of the heap or
    raises.  The wrappers call only methods captured by earlier
    decorations, so the chain from a [__new__] or an [__init__] ends after
    at most as many wrappers as there are closures; and the call adds no
    closure. *)
Theorem construct_comes_back (w : world) (T : cid) (a : list value) (kw : kwargs) :
  reachable w →
  let res := construct T a kw w in
  res.1 ≠ Stuck ∧
  (∀ r, res.1 = Ok r → is_Some (heap res.2 !! r)) ∧
  length (cells res.2) = length (cells w).
Proof.
  intros Hr res. pose proof (construct_safe w T a kw (reachable_wf w Hr)) as Hs.
  unfold safe in Hs. fold res in Hs.
  destruct res as [[r| |] w1]; simpl; [| |done].
  - destruct Hs as [[_ Hlen] Hlt]. split; [done|]. split; [|done].
    intros ? [= <-]. by apply lookup_lt_is_Some_2.
  - destruct Hs as [_ Hlen]. split; [done|]. split; done.
Qed.

Lemma construct_comes_back_witness :
  let w := (parent_and_child (config_of true true false) (Some default_config)
              empty_world).2 in
  (construct 1 [VInt 1] [] w).1 ≠ Stuck.
Proof.
  intros w.
  destruct (construct_comes_back w 1 [VInt 1] []) as [H _]; [|exact H].
  unfold w, parent_and_child.
  change (reachable (decorator default_config (VClass 1)
    (class_create "Child" (Some 0) None
       (decorator (config_of true true false) (VClass 0)
          (class_create "Parent" None None empty_world).2).2).2).2).
  repeat constructor.
Defined.

(** ** Construction calls and the class table *)

(** X13.  A construction call, whatever it returns or raises, changes no
    class: every class keeps its name, flag, [__new__] and [__init__], and
    [is_singleton] answers as before for every value. *)
Theorem construct_keeps_classes (w : world) (T : cid) (a : list value) (kw : kwargs)
    (v : value) :
  let w' := (construct T a kw w).2 in
  classes w' = classes w ∧ is_singleton w' v = is_singleton w v.
Proof.
  intros w'.
  assert (classes w' = classes w) as Hc.
  { unfold w', construct, bind.
    pose proof (call_new_frame (S (length (cells w))) (class_new w T) T a kw w) as Hn.
    destruct (call_new _ _ T a kw w) as [[r| |] w1]; cbn [snd] in *;
      try by destruct Hn.
    destruct Hn as [Hc1 _].
    destruct (heap w1 !! r) as [o|]; [|done].
    destruct (isinstance w1 o T); [|done].
    pose proof (call_init_frame (S (length (cells w)))
                  (class_init w1 (obj_class o)) r a kw w1) as Hi.
    destruct (call_init _ _ r a kw w1) as [[[]| |] w2]; cbn [snd] in *;
      destruct Hi as [Hc2 _]; simpl; congruence. }
  split; [done|]. destruct v; try done. simpl.
  unfold class_flag, class_name, class_mro. by rewrite Hc.
Qed.

(** * The subclass policy in whole programs *)

(** ** Programs that decorate their classes where they declare them *)

Lemma mro_find_elem {A} (attr : class_rec → option A) cs mro a :
  mro_find cs attr mro = Some a →
  ∃ c cr, c ∈ mro ∧ cs !! c = Some cr ∧ attr cr = Some a.
Proof.
  induction mro as [|c mro IH]; [done|]. simpl.
  destruct (cs !! c) as [cr|] eqn:Hc; simpl.
  - destruct (attr cr) as [a'|] eqn:Ha.
    + intros [= ->]. exists c, cr. split; [apply list_elem_of_here|done].
    + intros (c' & cr' & ? & ? & ?)%IH. exists c', cr'.
      split; [by apply list_elem_of_further|done].
  - intros (c' & cr' & ? & ? & ?)%IH. exists c', cr'.
    split; [by apply list_elem_of_further|done].
Qed.

Lemma declared_reachable w : declared w → reachable w.
Proof.
  induction 1 as [|w name base init _ IH Hi|w name base init k _ IH Hi|w T a kw _ IH].
  - constructor.
  - by constructor.
  - unfold bind.
    pose proof (reach_class w name base init IH Hi) as Hc.
    destruct (class_create name base init w) as [[c| |] w1]; [|done..].
    by constructor.
  - by constructor.
Qed.

Section Tidy.
Variable w : world.
Hypothesis Htidy : tidy w.

Lemma bases_of_lookup c cr : classes w !! c = Some cr → bases_of w c = cbases cr.
Proof. intros H. unfold bases_of. by rewrite H. Qed.

Lemma class_mro_cons c : class_mro w c = c :: bases_of w c.
Proof. reflexivity. Qed.

Lemma elem_of_class_mro x c : x ∈ class_mro w c ↔ x = c ∨ x ∈ bases_of w c.
Proof. rewrite class_mro_cons. apply elem_of_cons. Qed.

Lemma bases_of_parent c :
  bases_of w c = [] ∨ ∃ b, b < c ∧ bases_of w c = class_mro w b.
Proof.
  unfold bases_of. destruct (classes w !! c) as [cr|] eqn:Hc; [|by left].
  apply (tidy_bases w Htidy c cr Hc).
Qed.

Lemma bases_lt c : ∀ x, x ∈ bases_of w c → x < c.
Proof.
  induction (lt_wf c) as [c _ IH]. intros x Hx.
  destruct (bases_of_parent c) as [Hn|(b & Hlt & Hb)]; rewrite ?Hn, ?Hb in Hx.
  - by apply elem_of_nil in Hx.
  - apply elem_of_cons in Hx as [->|Hx]; [done|]. specialize (IH b Hlt x Hx). lia.
Qed.

Lemma bases_trans c : ∀ x y, x ∈ bases_of w c → y ∈ bases_of w x → y ∈ bases_of w c.
Proof.
  induction (lt_wf c) as [c _ IH]. intros x y Hx Hy.
  destruct (bases_of_parent c) as [Hn|(b & Hlt & Hb)]; rewrite ?Hn, ?Hb in Hx |- *.
  - by apply elem_of_nil in Hx.
  - apply list_elem_of_further.
    apply elem_of_cons in Hx as [->|Hx]; [done|]. by apply (IH b Hlt x y).
Qed.

(** A proper ancestor of a class of the MRO of [X] is a proper ancestor
    of [X]. *)
Lemma bases_mro X c y : c ∈ class_mro w X → y ∈ bases_of w c → y ∈ bases_of w X.
Proof.
  intros [->|Hc]%elem_of_class_mro Hy; [done|]. by eapply bases_trans.
Qed.

(** Below a decorated class [T], the [__new__] found on a class is the
    wrapper of a closure made for a class between the two. *)
Lemma find_new_between T crT dT :
  classes w !! T = Some crT → own_new crT = Some (SingletonNew dT) →
  ∀ c, T ∈ class_mro w c →
  ∃ d cl, class_new w c = SingletonNew d ∧ cells w !! d = Some cl ∧
          original_cls cl ∈ class_mro w c ∧ T ∈ class_mro w (original_cls cl).
Proof.
  intros HT HnT c. induction (lt_wf c) as [c _ IH]. intros Hc.
  destruct (classes w !! c) as [cr|] eqn:Hcr.
  - destruct (own_new cr) as [m|] eqn:Hm.
    + destruct (tidy_new w Htidy c cr m Hcr Hm) as (d & cl & -> & Hd & Hcl).
      exists d, cl. split; [by eapply class_new_own|]. split; [done|].
      rewrite Hcl. split; [apply list_elem_of_here|done].
    + assert (T ∈ bases_of w c) as Hb.
      { apply elem_of_class_mro in Hc as [->|Hc]; [|done]. congruence. }
      destruct (bases_of_parent c) as [Hn|(b & Hlt & Hbb)].
      { rewrite Hn in Hb. by apply elem_of_nil in Hb. }
      rewrite Hbb in Hb. destruct (IH b Hlt Hb) as (d & cl & Hnew & Hd & Hin & HTin).
      exists d, cl. split; [|split; [done|split; [|done]]].
      * unfold class_new in *. rewrite (mro_find_inherit own_new w c cr) by done.
        by rewrite <-(bases_of_lookup c cr), Hbb.
      * rewrite class_mro_cons, Hbb. by apply list_elem_of_further.
  - assert (bases_of w c = []) as Hn by (unfold bases_of; by rewrite Hcr).
    apply elem_of_class_mro in Hc as [->|Hc]; [congruence|].
    rewrite Hn in Hc. by apply elem_of_nil in Hc.
Qed.

(** The original [__new__] of a closure made for a proper subclass of a
    decorated class [T] is such a wrapper too. *)
Lemma original_new_between T crT dT d cl :
  classes w !! T = Some crT → own_new crT = Some (SingletonNew dT) →
  cells w !! d = Some cl → T ∈ bases_of w (original_cls cl) →
  ∃ d' cl', _original_new cl = SingletonNew d' ∧ cells w !! d' = Some cl' ∧
            original_cls cl' ∈ bases_of w (original_cls cl) ∧
            T ∈ class_mro w (original_cls cl').
Proof.
  intros HT HnT Hd Hb.
  destruct (tidy_cell w Htidy d cl Hd) as (cr & Hcr & _ & Horig & _).
  destruct (bases_of_parent (original_cls cl)) as [Hn|(b & Hlt & Hbb)].
  { rewrite Hn in Hb. by apply elem_of_nil in Hb. }
  rewrite Hbb in Hb.
  destruct (find_new_between T crT dT HT HnT b Hb) as (d' & cl' & Hnew & Hd' & Hin & HTin).
  exists d', cl'. split; [|split; [done|split; [|done]]].
  - rewrite Horig, <-(bases_of_lookup _ cr Hcr), Hbb. exact Hnew.
  - by rewrite Hbb.
Qed.

(** The wrapper found on a class belongs to a closure made for a class of
    its MRO, and so does the original [__new__] of a closure, when it is a
    wrapper. *)
Lemma class_new_lineage X d :
  class_new w X = SingletonNew d →
  ∃ cl, cells w !! d = Some cl ∧ original_cls cl ∈ class_mro w X.
Proof.
  unfold class_new. destruct (mro_find _ own_new _) as [m|] eqn:Hm; [|done].
  simpl. intros ->. destruct (mro_find_elem _ _ _ _ Hm) as (c & cr & Hin & Hc & Ho).
  destruct (tidy_new w Htidy c cr _ Hc Ho) as (d' & cl & [= <-] & Hd & Hcl).
  exists cl. by rewrite Hcl.
Qed.

Lemma original_new_lineage d cl d' :
  cells w !! d = Some cl → _original_new cl = SingletonNew d' →
  ∃ cl', cells w !! d' = Some cl' ∧ original_cls cl' ∈ bases_of w (original_cls cl).
Proof.
  intros Hd Ho. destruct (tidy_cell w Htidy d cl Hd) as (cr & Hcr & _ & Horig & _).
  rewrite Ho in Horig.
  destruct (mro_find _ own_new _) as [m|] eqn:Hm; [|done]. simpl in Horig. subst m.
  destruct (mro_find_elem _ _ _ _ Hm) as (c & cr' & Hin & Hc & Hown).
  destruct (tidy_new w Htidy c cr' _ Hc Hown) as (d2 & cl' & [= <-] & Hd' & Hcl).
  exists cl'. split; [done|]. by rewrite Hcl, (bases_of_lookup _ cr Hcr).
Qed.

(** One closure per decorated class. *)
Lemma tidy_cell_unique d1 d2 cl1 cl2 :
  cells w !! d1 = Some cl1 → cells w !! d2 = Some cl2 →
  original_cls cl1 = original_cls cl2 → d1 = d2.
Proof.
  intros H1 H2 Heq.
  destruct (tidy_cell w Htidy d1 cl1 H1) as (cr1 & Hc1 & Hn1 & _).
  destruct (tidy_cell w Htidy d2 cl2 H2) as (cr2 & Hc2 & Hn2 & _).
  rewrite Heq in Hc1. congruence.
Qed.
End Tidy.

(** ** Every way up to a class that does not allow subclasses ends in an
    error *)

Lemma barred_raises w dT clT cls :
  tidy w → wf w →
  cells w !! dT = Some clT → allow_subclass (cfg clT) = false →
  original_cls clT ∈ bases_of w cls →
  ∀ fuel d cl a kw, d < fuel → cells w !! d = Some cl →
    original_cls clT ∈ class_mro w (original_cls cl) →
    original_cls cl ∈ class_mro w cls →
    ∃ e, call_new fuel (SingletonNew d) cls a kw w = (Raise e, w) ∧
         rejection w (original_cls clT) cls e.
Proof.
  intros Htidy Hwf HdT Hforbid HTS.
  destruct (tidy_cell w Htidy dT clT HdT) as (crT & HcT & HnT & _).
  induction fuel as [|fuel IH]; intros d cl a kw Hlt Hd HTin Hin; [lia|].
  rewrite call_new_singleton.
  assert (original_cls cl ≠ original_cls clT → ∀ a', ∃ e,
    _create_instance (call_new fuel) d cls a' kw w = (Raise e, w) ∧
    rejection w (original_cls clT) cls e) as Hup.
  { intros Hne a'.
    assert (original_cls clT ∈ bases_of w (original_cls cl)) as Hb.
    { apply elem_of_class_mro in HTin as [Heq|?]; [congruence|done]. }
    destruct (original_new_between w Htidy _ crT dT d cl HcT HnT Hd Hb)
      as (d' & cl' & Ho & Hd' & Hin' & HTin').
    unfold _create_instance, bind, get_cell. rewrite Hd, Ho. cbn [new_is_object].
    destruct Hwf as [Hce _]. destruct (Hce d cl Hd) as (Hlt' & _).
    specialize (Hlt' d' Ho).
    apply (IH d' cl'); [lia | done | done |].
    apply elem_of_class_mro. right. by eapply bases_mro. }
  destruct (decide (cls = original_cls cl)) as [->|Hne].
  - assert (_instance cl = None) as Hnone.
    { apply (tidy_slot w Htidy d cl Hd). by exists dT, clT. }
    assert (original_cls cl ≠ original_cls clT) as HneT.
    { intros Heq. rewrite Heq in HTS. apply (bases_lt w Htidy) in HTS. lia. }
    destruct (Hup HneT (VClass (original_cls cl) :: a)) as (e & He & Hrej).
    exists e. split; [|done].
    rewrite (new_original_empty _ _ _ cl) by done. unfold bind at 1. by rewrite He.
  - rewrite (new_subclass_branch _ _ _ cl) by done. unfold bind at 1.
    destruct (allow_subclass (cfg cl)) eqn:Hsub.
    + rewrite (check_subclass_flag _ _ cl) by done.
      case_bool_decide as Hflag.
      * exists (not_singleton w cls). split; [done|]. by left.
      * assert (original_cls cl ≠ original_cls clT) as HneT.
        { intros Heq. assert (d = dT) by by eapply tidy_cell_unique.
          subst d. simplify_eq. congruence. }
        destruct (Hup HneT (VClass cls :: a)) as (e & He & Hrej).
        exists e. split; [|done]. unfold bind at 1. by rewrite He.
    + rewrite (check_subclass_denied _ _ cl) by done.
      exists (not_allowed w cl). split; [done|]. right. exists d, cl.
      split; [done|]. split; [done|]. split; [done|]. split; [|done].
      apply elem_of_class_mro in Hin as [?|?]; [congruence|done].
Qed.

Lemma barred_construct w d cl cls a kw :
  tidy w → wf w → cells w !! d = Some cl → allow_subclass (cfg cl) = false →
  original_cls cl ∈ bases_of w cls →
  ∃ e, construct cls a kw w = (Raise e, w) ∧ rejection w (original_cls cl) cls e.
Proof.
  intros Htidy Hwf Hd Hforbid Hb.
  destruct (tidy_cell w Htidy d cl Hd) as (crT & HcT & HnT & _).
  destruct (find_new_between w Htidy _ crT d HcT HnT cls)
    as (d' & cl' & Hnew & Hd' & Hin & HTin).
  { apply elem_of_class_mro. by right. }
  pose proof (class_new_bound w cls d' Hwf Hnew) as Hlt.
  destruct (barred_raises w d cl cls Htidy Hwf Hd Hforbid Hb
              (S (length (cells w))) d' cl' a kw) as (e & He & Hrej); [lia|done..|].
  exists e. split; [|done]. apply construct_new_raises. by rewrite Hnew.
Qed.

(** ** A construction call writes the slots of its own line only *)

Lemma same_at_refl D w : same_at D w w.
Proof. by intros d _. Qed.

Lemma same_at_set_instance D d r w w1 :
  ¬ D d → same_at D w w1 → same_at D w (set_instance d r w1).2.
Proof.
  intros HD H d0 Hd0. simpl. rewrite list_lookup_alter_ne; [by apply H|].
  by intros <-.
Qed.

Lemma check_subclass_world d cls w : (_check_subclass d cls w).2 = w.
Proof.
  unfold _check_subclass, bind, get_cell.
  destruct (cells w !! d) as [c|]; [|done].
  destruct (negb _); [done|]. by destruct (bool_decide _).
Qed.

Lemma object_new_cells cls a kw w : cells (object_new cls a kw w).2 = cells w.
Proof. unfold object_new. by repeat case_match. Qed.

Lemma new_same_at D call d cl cls rest kw w :
  cells w !! d = Some cl → ¬ D d →
  (∀ a', same_at D w (call (_original_new cl) cls a' kw w).2) →
  same_at D w (__new__ call d cls rest kw w).2.
Proof.
  intros Hd HD Hcall.
  assert (∀ a', same_at D w (_create_instance call d cls a' kw w).2) as Hcreate.
  { intros a'. unfold _create_instance, bind, get_cell. rewrite Hd.
    destruct (new_is_object (_original_new cl)); [|apply Hcall].
    intros d0 _. by rewrite object_new_cells. }
  destruct (decide (cls = original_cls cl)) as [->|Hne].
  - destruct (_instance cl) as [r|] eqn:Hsl.
    + rewrite (new_original_populated _ _ _ cl _ _ r) by done. apply same_at_refl.
    + rewrite (new_original_empty _ _ _ cl) by done. unfold bind at 1.
      specialize (Hcreate (VClass (original_cls cl) :: rest)).
      destruct (_create_instance _ _ _ _ _ w) as [[r| |] w1]; [|done..].
      cbn [snd] in Hcreate.
      pose proof (same_at_set_instance D d r w w1 HD Hcreate) as Hset.
      unfold bind, get_cell. simpl in *.
      destruct (alter _ d (cells w1) !! d) as [c|]; [destruct (_instance c)|]; exact Hset.
  - rewrite (new_subclass_branch _ _ _ cl) by done. unfold bind at 1.
    pose proof (check_subclass_world d cls w) as Hw.
    destruct (_check_subclass d cls w) as [[b| |] w0]; cbn [snd] in Hw; subst w0;
      [|apply same_at_refl..].
    unfold bind at 1. specialize (Hcreate (VClass cls :: rest)).
    destruct (_create_instance _ _ _ _ _ w) as [[r| |] w1]; [|done..].
    cbn [snd] in Hcreate. by apply same_at_set_instance.
Qed.

Lemma call_new_object fuel cls a kw : call_new fuel ObjectNew cls a kw = object_new cls a kw.
Proof. by destruct fuel. Qed.

Lemma call_new_lineage w X :
  tidy w →
  ∀ fuel d cl a kw, cells w !! d = Some cl → original_cls cl ∈ class_mro w X →
  same_at (λ d0, ∃ cl0, cells w !! d0 = Some cl0 ∧ original_cls cl0 ∉ class_mro w X) w
    (call_new fuel (SingletonNew d) X a kw w).2.
Proof.
  intros Htidy. induction fuel as [|fuel IH]; intros d cl a kw Hd Hin.
  { apply same_at_refl. }
  rewrite call_new_singleton. eapply new_same_at; [exact Hd| |].
  - intros (cl0 & H0 & Hn). rewrite Hd in H0. by injection H0 as <-.
  - intros a'. destruct (_original_new cl) as [|d'] eqn:Ho.
    + intros d0 _. by rewrite call_new_object, object_new_cells.
    + destruct (original_new_lineage w Htidy d cl d' Hd Ho) as (cl' & Hd' & Hin').
      apply (IH d' cl'); [done|]. apply elem_of_class_mro. right. by eapply bases_mro.
Qed.

Lemma construct_lineage w X a kw d0 cl0 :
  tidy w → cells w !! d0 = Some cl0 → original_cls cl0 ∉ class_mro w X →
  _instance <$> cells (construct X a kw w).2 !! d0 = Some (_instance cl0).
Proof.
  intros Htidy Hd0 Hout. unfold construct, bind.
  assert (cells (call_new (S (length (cells w))) (class_new w X) X a kw w).2 !! d0
          = Some cl0) as Hnew.
  { destruct (class_new w X) as [|d] eqn:Hn.
    - by rewrite call_new_object, object_new_cells.
    - destruct (class_new_lineage w Htidy X d Hn) as (cl & Hd & Hin).
      rewrite (call_new_lineage w X Htidy _ d cl a kw Hd Hin d0); [done|]. by exists cl0. }
  assert (∀ w1, cells w1 !! d0 = Some cl0 →
            _instance <$> cells w1 !! d0 = Some (_instance cl0)) as Hgoal.
  { intros w1 H1. by rewrite H1. }
  destruct (call_new _ _ X a kw w) as [[r| |] w1]; cbn [snd] in Hnew;
    [|by apply Hgoal..].
  destruct (heap w1 !! r) as [o|]; [|by apply Hgoal].
  destruct (isinstance w1 o X); [|by apply Hgoal].
  pose proof (call_init_frame (S (length (cells w)))
                (class_init w1 (obj_class o)) r a kw w1) as (_ & _ & Hi & _).
  pose proof (Hgoal w1 Hnew) as H1.
  rewrite <-list_lookup_fmap, <-Hi, list_lookup_fmap in H1.
  by destruct (call_init _ _ r a kw w1) as [[[]| |] w2].
Qed.

(** ** The steps of the program keep the state tidy *)

Lemma construct_statics w X a kw :
  classes (construct X a kw w).2 = classes w ∧
  cell_static <$> cells (construct X a kw w).2 = cell_static <$> cells w.
Proof.
  unfold construct, bind.
  pose proof (call_new_frame (S (length (cells w))) (class_new w X) X a kw w)
    as (Hc & Hs & _).
  destruct (call_new _ _ X a kw w) as [[r| |] w1]; cbn [snd] in *; [|done..].
  destruct (heap w1 !! r) as [o|]; [|done].
  destruct (isinstance w1 o X); [|done].
  pose proof (call_init_frame (S (length (cells w)))
                (class_init w1 (obj_class o)) r a kw w1) as (Hc' & Hs' & _).
  destruct (call_init _ _ r a kw w1) as [[[]| |] w2]; cbn [snd] in *;
    simpl; split; congruence.
Qed.

Lemma cell_static_eq c c' :
  cell_static c' = cell_static c →
  original_cls c' = original_cls c ∧ cfg c' = cfg c ∧
  _original_new c' = _original_new c ∧ _original_init c' = _original_init c.
Proof. unfold cell_static. intros [= -> -> -> ->]. done. Qed.

Lemma tidy_statics w w' :
  tidy w → classes w' = classes w →
  cell_static <$> cells w' = cell_static <$> cells w →
  (∀ d cl', cells w' !! d = Some cl' → barred w (original_cls cl') →
     _instance cl' = None) →
  tidy w'.
Proof.
  intros Htidy Hc Hs Hslot.
  assert (∀ c, class_mro w' c = class_mro w c) as Hmro.
  { intros c. unfold class_mro. by rewrite Hc. }
  assert (∀ d cl', cells w' !! d = Some cl' →
            ∃ cl, cells w !! d = Some cl ∧ cell_static cl = cell_static cl') as Hback.
  { intros d cl' Hd. by eapply frame_cell_static. }
  split.
  - intros c cr Hcr. rewrite Hc in Hcr.
    destruct (tidy_bases w Htidy c cr Hcr) as [?|(b & ? & ?)]; [by left|].
    right. exists b. by rewrite Hmro.
  - intros c cr m Hcr Hm. rewrite Hc in Hcr.
    destruct (tidy_new w Htidy c cr m Hcr Hm) as (d & cl & -> & Hd & Hcl).
    destruct (frame_cell_static _ _ _ _ Hs Hd) as (cl' & Hd' & Hst).
    apply cell_static_eq in Hst as (Ho & _). exists d, cl'. by rewrite Ho.
  - intros d cl' Hd'. destruct (Hback d cl' Hd') as (cl & Hd & Hst).
    apply cell_static_eq in Hst as (Ho & _ & Hn & _).
    destruct (tidy_cell w Htidy d cl Hd) as (cr & Hcr & Hown & Horig & Hflag).
    exists cr. rewrite Hc, <-Ho, <-Hn. done.
  - intros d cl' Hd' (dT & clT' & HdT' & Hforbid & Hin).
    apply (Hslot d cl' Hd').
    destruct (Hback dT clT' HdT') as (clT & HdT & Hst).
    apply cell_static_eq in Hst as (Ho & Hcfg & _).
    exists dT, clT. rewrite Ho, Hcfg. split; [done|]. split; [done|].
    unfold bases_of in *. by rewrite <-Hc.
Qed.

Lemma tidy_construct w X a kw : tidy w → wf w → tidy (construct X a kw w).2.
Proof.
  intros Htidy Hwf. destruct (construct_statics w X a kw) as [Hc Hs].
  apply (tidy_statics w); [done..|].
  intros d cl' Hd' Hbar.
  destruct (frame_cell_static _ _ d cl' (eq_sym Hs) Hd') as (cl & Hd & Hst).
  apply cell_static_eq in Hst as (Ho & _). rewrite <-Ho in Hbar.
  pose proof (tidy_slot w Htidy d cl Hd Hbar) as Hnone.
  destruct (decide (original_cls cl ∈ class_mro w X)) as [Hin|Hout].
  - destruct Hbar as (dT & clT & HdT & Hforbid & HTin).
    destruct (barred_construct w dT clT X a kw Htidy Hwf HdT Hforbid)
      as (e & He & _); [by eapply bases_mro|].
    rewrite He in Hd'. simpl in Hd'. congruence.
  - pose proof (construct_lineage w X a kw d cl Htidy Hd Hout) as H.
    rewrite Hd' in H. simpl in H. congruence.
Qed.

Lemma tidy_empty : tidy empty_world.
Proof.
  split; simpl.
  - intros c cr H. by rewrite lookup_nil in H.
  - intros c cr m H. by rewrite lookup_nil in H.
  - intros d cl H. by rewrite lookup_nil in H.
  - intros d cl H. by rewrite lookup_nil in H.
Qed.

(** A class statement, before any decoration. *)
Lemma tidy_add_class w new :
  tidy w → own_new new = None →
  cbases new = [] ∨ (∃ b, b < length (classes w) ∧ cbases new = class_mro w b) →
  tidy (with_classes (λ cs, (cs ++ [new])%list) w).
Proof.
  intros Htidy Hown Hbases. set (w' := with_classes _ w).
  assert (∀ c, c < length (classes w) → classes w' !! c = classes w !! c) as Hold.
  { intros c Hlt. simpl. by apply lookup_app_l. }
  assert (∀ c, c < length (classes w) → class_mro w' c = class_mro w c) as Hmro.
  { intros c Hlt. unfold class_mro. by rewrite Hold. }
  split.
  - intros c cr [[Hlt Hcr]|[-> <-]]%lookup_snoc_Some.
    + destruct (tidy_bases w Htidy c cr Hcr) as [?|(b & ? & ?)]; [by left|].
      right. exists b. split; [done|]. rewrite Hmro; [done|lia].
    + destruct Hbases as [?|(b & ? & ?)]; [by left|].
      right. exists b. split; [done|]. by rewrite Hmro.
  - intros c cr m [[Hlt Hcr]|[-> <-]]%lookup_snoc_Some Hm; [|congruence].
    apply (tidy_new w Htidy c cr m Hcr Hm).
  - intros d cl Hd.
    destruct (tidy_cell w Htidy d cl Hd) as (cr & Hcr & Hn & Horig & Hflag).
    exists cr. split; [by apply lookup_app_l_Some|]. split; [done|]. split; [|done].
    rewrite Horig. simpl. rewrite mro_find_app; [done|].
    apply Forall_forall. intros x Hx.
    rewrite <-(bases_of_lookup w _ cr Hcr) in Hx.
    apply (bases_lt w Htidy) in Hx. apply lookup_lt_Some in Hcr. lia.
  - intros d cl Hd (dT & clT & HdT & Hforbid & Hin).
    apply (tidy_slot w Htidy d cl Hd). exists dT, clT. split; [done|]. split; [done|].
    destruct (tidy_cell w Htidy d cl Hd) as (cr & Hcr & _).
    unfold bases_of in *. rewrite Hold in Hin; [done|]. by eapply lookup_lt_Some.
Qed.

Lemma class_create_cases name base init w :
  class_create name base init w = (Stuck, w) ∨
  ∃ new, class_create name base init w
           = (Ok (length (classes w)), with_classes (λ cs, (cs ++ [new])%list) w) ∧
         own_new new = None ∧
         (cbases new = [] ∨ ∃ b, b < length (classes w) ∧ cbases new = class_mro w b).
Proof.
  unfold class_create. destruct base as [b|].
  - destruct (classes w !! b) as [cr|] eqn:Hb; [|by left].
    right. eexists. split; [reflexivity|]. split; [done|]. right. exists b.
    split; [by eapply lookup_lt_Some|done].
  - right. eexists. split; [reflexivity|]. split; [done|]. by left.
Qed.

Lemma tidy_class_create name base init w :
  tidy w → tidy (class_create name base init w).2.
Proof.
  intros Htidy.
  destruct (class_create_cases name base init w) as [->|(new & -> & Hn & Hb)]; [done|].
  by apply tidy_add_class.
Qed.

(** The decoration of the class declared last. *)
Lemma tidy_decorate_last k c cr w :
  tidy w → classes w !! c = Some cr → own_new cr = None → S c = length (classes w) →
  tidy (decorator k (VClass c) w).2.
Proof.
  intros Htidy Hc Hown Hlast.
  destruct (decorator_class k c w cr Hc) as (_ & Hcells & _).
  destruct (decorator_classes k c w cr Hc) as [f Hf].
  set (d := length (cells w)) in *.
  set (w' := (decorator k (VClass c) w).2) in *.
  assert (classes w' !! c = Some
    {| cname := cname cr; cbases := cbases cr; own_new := Some (SingletonNew d);
       own_init := if allow_reassignment k then own_init cr else Some (SingletonInit d);
       own_flag := Some (cname cr) |}) as HT.
  { unfold w', decorator. rewrite Hc.
    destruct (allow_reassignment k); cbn [snd negb]; unfold class_name; simpl;
      unfold set_own_flag, set_own_new, set_own_init;
      rewrite !list_lookup_alter_eq, Hc; reflexivity. }
  assert (∀ c', c' ≠ c → classes w' !! c' = classes w !! c') as Hother.
  { intros c' Hne. rewrite Hf. by apply list_lookup_alter_ne. }
  assert (∀ x, bases_of w' x = bases_of w x) as Hbases.
  { intros x. unfold bases_of. destruct (decide (x = c)) as [->|Hne].
    - by rewrite HT, Hc.
    - by rewrite Hother. }
  assert (∀ x, class_mro w' x = class_mro w x) as Hmro.
  { intros x. by rewrite !class_mro_cons, Hbases. }
  assert (∀ x cr', classes w !! x = Some cr' → c ∉ cbases cr') as Hnotin.
  { intros x cr' Hx Hin. rewrite <-(bases_of_lookup w x cr' Hx) in Hin.
    apply (bases_lt w Htidy) in Hin. apply lookup_lt_Some in Hx. lia. }
  assert (∀ d0 cl0, cells w !! d0 = Some cl0 → original_cls cl0 ≠ c) as Hfresh.
  { intros d0 cl0 Hd0 Heq.
    destruct (tidy_cell w Htidy d0 cl0 Hd0) as (cr0 & Hcr0 & Hn0 & _).
    rewrite Heq in Hcr0. congruence. }
  split.
  - intros c' cr' Hc'.
    assert (∃ cr0, classes w !! c' = Some cr0 ∧ cbases cr0 = cbases cr') as (cr0 & H0 & <-).
    { destruct (decide (c' = c)) as [->|Hne].
      - rewrite HT in Hc'. injection Hc' as <-. by exists cr.
      - rewrite Hother in Hc' by done. by exists cr'. }
    destruct (tidy_bases w Htidy c' cr0 H0) as [?|(b & ? & ?)]; [by left|].
    right. exists b. by rewrite Hmro.
  - intros c' cr' m Hc' Hm. destruct (decide (c' = c)) as [->|Hne].
    + rewrite HT in Hc'. injection Hc' as <-. simpl in Hm. injection Hm as <-.
      exists d, (closure_of k c w). split; [done|]. split; [|done].
      rewrite Hcells. by apply list_lookup_middle.
    + rewrite Hother in Hc' by done.
      destruct (tidy_new w Htidy c' cr' m Hc' Hm) as (d0 & cl0 & -> & Hd0 & Hcl0).
      exists d0, cl0. split; [done|]. split; [|done].
      rewrite Hcells. by apply lookup_app_l_Some.
  - intros d0 cl0. rewrite Hcells.
    intros [[Hlt Hd0]|[-> <-]]%lookup_snoc_Some.
    + destruct (tidy_cell w Htidy d0 cl0 Hd0) as (cr0 & Hcr0 & Hn0 & Horig & Hflag).
      exists cr0. split; [rewrite Hother; [done|by eapply Hfresh]|]. split; [done|].
      split; [|done].
      rewrite Horig, Hf, mro_find_alter_notin; [done|]. by eapply Hnotin.
    + eexists. split; [exact HT|]. split; [done|]. split; [|done].
      cbn [closure_of _original_new cbases]. unfold class_new.
      rewrite (mro_find_inherit own_new w c cr) by done.
      rewrite Hf, mro_find_alter_notin; [done|]. by eapply Hnotin.
  - intros d0 cl0. rewrite Hcells.
    intros [[Hlt Hd0]|[-> <-]]%lookup_snoc_Some; [|done].
    intros (dT & clT & HdT & Hforbid & Hin). rewrite Hbases in Hin.
    apply (tidy_slot w Htidy d0 cl0 Hd0). exists dT, clT.
    split; [|done]. rewrite Hcells in HdT.
    apply lookup_snoc_Some in HdT as [[_ HdT]|[-> <-]]; [done|].
    cbn [closure_of original_cls] in Hin. apply (bases_lt w Htidy) in Hin.
    destruct (tidy_cell w Htidy d0 cl0 Hd0) as (cr0 & Hcr0 & _).
    apply lookup_lt_Some in Hcr0. lia.
Qed.

Lemma declared_tidy w : declared w → tidy w.
Proof.
  induction 1 as [|w name base init Hd IH Hi|w name base init k Hd IH Hi|w T a kw Hd IH].
  - apply tidy_empty.
  - by apply tidy_class_create.
  - unfold bind.
    destruct (class_create_cases name base init w) as [->|(new & -> & Hn & Hb)]; [done|].
    eapply (tidy_decorate_last k _ new).
    + by apply tidy_add_class.
    + simpl. by apply list_lookup_middle.
    + done.
    + simpl. rewrite length_app. simpl. lia.
  - apply tidy_construct; [done|]. by apply reachable_wf, declared_reachable.
Qed.

(** ** Subclasses of a class that does not allow them *)

Lemma declared_wf w : declared w → wf w.
Proof. intros H. by apply reachable_wf, declared_reachable. Qed.

Lemma rejection_type_error w T cls e : rejection w T cls e → ∃ msg, e = TypeError msg.
Proof.
  intros [[-> _]|(d & cl & _ & _ & _ & _ & ->)]; unfold not_singleton, not_allowed; eauto.
Qed.




(** ** Subclasses that are not singletons *)

(** A class whose flag is not its name is refused by the decorated class
    next above it. *)
Lemma nearest_check w d cl cls rest kw :
  tidy w → wf w → cells w !! d = Some cl →
  original_cls cl ∈ bases_of w cls →
  class_flag w cls ≠ Some (class_name w cls) →
  ∃ dn cn, class_new w cls = SingletonNew dn ∧ cells w !! dn = Some cn ∧
           original_cls cn ∈ bases_of w cls ∧
           original_cls cl ∈ class_mro w (original_cls cn) ∧
           construct cls rest kw w =
             (Raise (if allow_subclass (cfg cn) then not_singleton w cls
                     else not_allowed w cn), w).
Proof.
  intros Htidy Hwf Hd Hb Hflag.
  destruct (tidy_cell w Htidy d cl Hd) as (crT & HcT & HnT & _).
  destruct (find_new_between w Htidy _ crT d HcT HnT cls)
    as (dn & cn & Hnew & Hdn & Hin & HTin).
  { apply elem_of_class_mro. by right. }
  assert (cls ≠ original_cls cn) as Hne.
  { intros ->. destruct (tidy_cell w Htidy dn cn Hdn) as (cr & Hcr & _ & _ & Hfl).
    apply Hflag. by rewrite (class_flag_own w _ cr (cname cr)), (class_name_lookup w _ cr). }
  exists dn, cn. split; [done|]. split; [done|]. split.
  { apply elem_of_class_mro in Hin as [?|?]; [congruence|done]. }
  split; [done|].
  apply construct_new_raises. rewrite Hnew, call_new_singleton.
  rewrite (new_subclass_branch _ _ _ cn) by done. unfold bind at 1.
  destruct (allow_subclass (cfg cn)) eqn:Hsub.
  - rewrite (check_subclass_flag _ _ cn) by done. by rewrite bool_decide_eq_true_2.
  - by rewrite (check_subclass_denied _ _ cn).
Qed.



